(** * Tarefa_Brou.py: the model-selection pipeline, embedded and verified

    The script fits a multi-factor linear regression and selects regressors by
    information criteria.  Its numerical kernels (statsmodels' [OLS.fit] and
    [variance_inflation_factor], scipy's [boxcox], statsmodels'
    [acorr_ljungbox], numpy's [linalg.svd]) are external libraries: they
    enter the development as section variables.  What is embedded is the
    script's own code: the date sort, the crisis mask and the non-crisis
    sample, the positivity shift and adoption rule of the Box-Cox step, the
    all-subsets table with its pandas ranking, the forward, backward and
    stepwise loops, the choice of the final variable set, the VIF table, the
    quotient of the condition number, the Ljung-Box call and the importance
    table.

    Numbers are Python floats, i.e. IEEE-754 binary64: they are Rocq's
    primitive floats, so [<?], [-] and [abs] below are the operations the
    interpreter runs, [infinity] is [np.inf] and [nan] is a NaN. *)

From Stdlib Require Import ZArith Lia List Floats String Sorted.
From stdpp Require Import gmap strings list sets.
Import ListNotations.
Set Warnings "-inexact-float,-clear-no-such-hyp".
Local Open Scope string_scope.

(** ** Python exceptions *)

Inductive exn := ValueError | KeyError | LinAlgError.

Inductive outcome (A : Type) :=
  | Return (a : A)
  | Raise (e : exn).
Arguments Return {A} a.
Arguments Raise {A} e.

#[export] Instance outcome_ret : MRet outcome := fun A a => Return a.
#[export] Instance outcome_bind : MBind outcome := fun A B f m =>
  match m with
  | Return a => f a
  | Raise e => Raise e
  end.

(** ** Floats as Python compares them *)

Definition is_nan (x : float) : bool := negb (x =? x)%float.

(** ** Builtins: [min(..., key=...)], [list.remove], [set.remove],
    [itertools.combinations] *)

(** [min] keeps the first item and replaces it only by an item whose key is
    strictly smaller; on an empty sequence it raises [ValueError]. *)
Fixpoint min_from {A} (key : A -> float) (best : A) (l : list A) : A :=
  match l with
  | [] => best
  | x :: l' => min_from key (if (key x <? key best)%float then x else best) l'
  end.

Definition py_min {A} (key : A -> float) (l : list A) : outcome A :=
  match l with
  | [] => Raise ValueError
  | x :: l' => Return (min_from key x l')
  end.

(** [l.remove(x)]: drops the first occurrence, [ValueError] when absent. *)
Fixpoint py_list_remove (x : string) (l : list string) : outcome (list string) :=
  match l with
  | [] => Raise ValueError
  | y :: l' => if decide (y = x) then Return l'
               else l'' ← py_list_remove x l'; Return (y :: l'')
  end.

(** [s.remove(x)] on a set: [KeyError] when absent. *)
Definition py_set_remove (x : string) (s : gset string) : outcome (gset string) :=
  if decide (x ∈ s) then Return (s ∖ {[x]}) else Raise KeyError.

(** [combinations(l, k)]: the length-[k] subsequences of [l], in the
    lexicographic order of their positions. *)
Fixpoint combinations {A} (l : list A) (k : nat) : list (list A) :=
  match k with
  | 0 => [[]]
  | S k' =>
      match l with
      | [] => []
      | x :: t => map (cons x) (combinations t k') ++ combinations t k
      end
  end.

(** ** pandas: a frame of subset results, with its index labels *)

(** One dictionary appended to [results_subset]. *)
Record subset_row := {
  vars : list string;
  k : nat;
  AIC : float;
  BIC : float;
  R2 : float
}.

(** A frame keeps, beside each row, the row's index label: sorting moves the
    rows together with their labels, [reset_index(drop=True)] relabels them
    0, 1, ... and [.loc] looks a row up by label, not by position. *)
Record DataFrame := {
  columns : list string;
  rows : list (nat * subset_row)
}.

(** [pd.DataFrame(records)]: a [RangeIndex]; the columns are the keys of the
    dictionaries, so an empty list of records gives a frame without columns. *)
Definition pd_DataFrame (records : list subset_row) : DataFrame :=
  {| columns := match records with
                | [] => []
                | _ => ["vars"; "k"; "AIC"; "BIC"; "R2"]
                end;
     rows := combine (seq 0 (length records)) records |}.

(** The float columns a frame can be sorted by. *)
Definition float_column (c : string) : option (subset_row -> float) :=
  if decide (c = "AIC") then Some AIC
  else if decide (c = "BIC") then Some BIC
  else if decide (c = "R2") then Some R2
  else None.

(** Ascending order with NaN last ([na_position="last"]). *)
Definition nan_last_leb (x y : float) : bool :=
  if is_nan y then true else if is_nan x then false else (x <=? y)%float.

Definition nan_last_ltb (x y : float) : bool := negb (nan_last_leb y x).

Fixpoint lex_leb (keys : list (subset_row -> float)) (r1 r2 : subset_row) : bool :=
  match keys with
  | [] => true
  | key :: keys' =>
      nan_last_ltb (key r1) (key r2)
      || (nan_last_leb (key r1) (key r2) && lex_leb keys' r1 r2)
  end.

Fixpoint insert_sorted {A} (le : A -> A -> bool) (x : A) (l : list A) : list A :=
  match l with
  | [] => [x]
  | y :: l' => if le x y then x :: l else y :: insert_sorted le x l'
  end.

(** A stable sort: rows with equal keys keep their relative order. *)
Definition stable_sort {A} (le : A -> A -> bool) (l : list A) : list A :=
  fold_right (insert_sorted le) [] l.

Fixpoint sort_keys (by_ : list string) : option (list (subset_row -> float)) :=
  match by_ with
  | [] => Some []
  | c :: by' =>
      match float_column c, sort_keys by' with
      | Some key, Some keys => Some (key :: keys)
      | _, _ => None
      end
  end.

(** [df.sort_values(by)]: [KeyError] when a column of [by] is missing;
    otherwise the rows, each with its label, in ascending order of the
    keys. *)
Definition sort_values (by_ : list string) (df : DataFrame) : outcome DataFrame :=
  if forallb (fun c => bool_decide (c ∈ columns df)) by_ then
    match sort_keys by_ with
    | Some keys =>
        Return {| columns := columns df;
                  rows := stable_sort (fun p q => lex_leb keys p.2 q.2) (rows df) |}
    | None => Raise KeyError
    end
  else Raise KeyError.

(** [df.reset_index(drop=True)] *)
Definition reset_index (df : DataFrame) : DataFrame :=
  {| columns := columns df;
     rows := combine (seq 0 (length (rows df))) (map snd (rows df)) |}.

(** [df.loc[label, "vars"]]: the row carrying [label]. *)
Definition loc_vars (label : nat) (df : DataFrame) : outcome (list string) :=
  if bool_decide ("vars" ∈ columns df) then
    match List.find (fun p => Nat.eqb p.1 label) (rows df) with
    | Some p => Return (vars p.2)
    | None => Raise KeyError
    end
  else Raise KeyError.

(** ** The factor universe (lines 57-58) *)

Definition base_factors : list string :=
  ["Rm-Rf"; "SMB"; "HML"; "RMW"; "CMA"; "Mom"; "ST_Rev"; "LT_Rev"].

(** [factors = [c for c in base_factors if c in fff.columns]] *)
Definition factors (fff_columns : list string) : list string :=
  filter (fun c => c ∈ fff_columns) base_factors.

(** ** What a fit returns

    [OLS(y_for_fit, add_constant(data_nc[cols])).fit()] is statsmodels' code.
    For the fixed data and response of a run it is a function of the column
    list [cols]; of its result the selection code reads [aic], [bic] and
    [rsquared].  The default fit goes through the pseudo-inverse, so it
    returns on a rank-deficient design too. *)
Record fitted := {
  aic : float;
  bic : float;
  rsquared : float
}.

(** How a loop body ends: next round, or [break]. *)
Inductive step (A : Type) :=
  | Continue (a : A)
  | Break (a : A).
Arguments Continue {A} a.
Arguments Break {A} a.

(** ** 3) Box-Cox (lines 128-146) *)

Module BoxCox.

(** [y0.min()] of a series without missing values (line 89 dropped them);
    NaN on an empty series. *)
Definition series_min (y : list float) : float :=
  match y with
  | [] => nan
  | y1 :: ys => fold_left (fun m x => if (x <? m)%float then x else m) ys y1
  end.

(** [shift = 1e-6 - min_y if min_y <= 0 else 0.0] *)
Definition shift (min_y : float) : float :=
  if (min_y <=? 0)%float then (1e-6 - min_y)%float else 0%float.

(** [y_pos = y0 + shift] *)
Definition y_pos (y0 : list float) : list float :=
  map (fun y => (y + shift (series_min y0))%float) y0.

(** The spec's words for the shift: max(0, eps - min), eps = 1e-6. *)
Definition spec_shift (min_y : float) : float :=
  let d := (1e-6 - min_y)%float in
  if (0 <? d)%float then d else 0%float.

Section Transform.

(** scipy's [boxcox]: the transformed series and the fitted lambda, or
    [None] when it raises [ValueError] (constant, non-positive or empty
    data), the one exception line 136 catches. *)
Variable boxcox : list float -> option (list float * float).

(** Lines 132-138: [(y_bc, lambda_bc)], both [None] after a failure. *)
Definition try_boxcox (y0 : list float) : option (list float) * option float :=
  match boxcox (y_pos y0) with
  | Some (y_bc, lambda_bc) => (Some y_bc, Some lambda_bc)
  | None => (None, None)
  end.

(** [y_label], without the formatting of lambda. *)
Inductive label :=
  | Y_boxcox (lambda_bc : float)
  | Y_sem_transformacao.

(** Lines 141-146: [(y_for_fit, y_label)].  [lambda_bc is not None] holds
    exactly when [boxcox] returned, and then [y_bc] is its series. *)
Definition fit_response (y0 : list float) : list float * label :=
  match try_boxcox y0 with
  | (Some y_bc, Some lambda_bc) =>
      if (0.10 <? abs (lambda_bc - 1.0))%float
      then (y_bc, Y_boxcox lambda_bc)
      else (y0, Y_sem_transformacao)
  | _ => (y0, Y_sem_transformacao)
  end.

Definition y_for_fit (y0 : list float) : list float := (fit_response y0).1.
Definition y_label (y0 : list float) : label := (fit_response y0).2.

End Transform.

End BoxCox.

(** ** 4.1) All subsets (lines 155-170) and the final choice (line 242) *)

Module Exhaustive.
Section Search.

Variable OLS_fit : list string -> fitted.

Definition row_of (k : nat) (subset : list string) : subset_row :=
  let m := OLS_fit subset in
  {| vars := subset; k := k; AIC := aic m; BIC := bic m; R2 := rsquared m |}.

Definition results_subset (factors : list string) : list subset_row :=
  concat (map (fun k => map (row_of k) (combinations factors k))
              (seq 1 (length factors))).

Definition res_df (factors : list string) : outcome DataFrame :=
  df ← sort_values ["AIC"; "BIC"] (pd_DataFrame (results_subset factors));
  mret (reset_index df).

(** [list(res_df.loc[0,"vars"])] *)
Definition best_aic_vars (factors : list string) : outcome (list string) :=
  df ← res_df factors;
  loc_vars 0 df.

(** [list(res_df.sort_values("BIC").loc[0,"vars"])] *)
Definition best_bic_vars (factors : list string) : outcome (list string) :=
  df ← res_df factors;
  df' ← sort_values ["BIC"] df;
  loc_vars 0 df'.

(** [final_vars = best_bic_vars if len(best_bic_vars)>0 else factors] *)
Definition final_vars (factors : list string) : outcome (list string) :=
  best ← best_bic_vars factors;
  mret (if (0 <? length best)%nat then best else factors).

(** The reference the search is compared with: the first subset, in
    enumeration order, whose score no other subset beats. *)
Definition brute_force (score : fitted -> float) (factors : list string)
  : outcome (list string) :=
  py_min (fun s => score (OLS_fit s))
         (concat (map (combinations factors) (seq 1 (length factors)))).

End Search.
End Exhaustive.

(** ** 4.2) Forward selection (lines 173-188) *)

Module Forward.
Section Loop.

Variable OLS_fit : list string -> fitted.
(** [list(remaining)]: the order in which Python walks a set.  It is a
    permutation of the elements, otherwise unspecified. *)
Variable set_iter : gset string -> list string.

Record state := {
  selected_fwd : list string;
  remaining : gset string;
  current_aic : float
}.

Definition aic_candidates (st : state) : list (float * string) :=
  map (fun var => (aic (OLS_fit (selected_fwd st ++ [var])), var))
      (set_iter (remaining st)).

Definition round (st : state) : outcome (step state) :=
  '(best_aic, best_var) ← py_min fst (aic_candidates st);
  if (best_aic <? current_aic st - 1e-8)%float then
    remaining' ← py_set_remove best_var (remaining st);
    mret (Continue {| selected_fwd := selected_fwd st ++ [best_var];
                      remaining := remaining';
                      current_aic := best_aic |})
  else mret (Break st).

(** [while remaining: ...]; [None] when the fuel runs out. *)
Fixpoint loop (fuel : nat) (st : state) : option (outcome state) :=
  match fuel with
  | 0 => None
  | S fuel' =>
      if decide (remaining st = ∅) then Some (Return st)
      else match round st with
           | Return (Continue st') => loop fuel' st'
           | Return (Break st') => Some (Return st')
           | Raise e => Some (Raise e)
           end
  end.

Definition init (factors : list string) : state :=
  {| selected_fwd := []; remaining := list_to_set factors;
     current_aic := infinity |}.

Definition forward (factors : list string) : option (outcome state) :=
  loop (S (length factors)) (init factors).

(** The AIC a selection is compared against: [np.inf] before the first
    addition, afterwards the AIC of the selected model. *)
Definition aic_of_selection (sel : list string) : float :=
  match sel with
  | [] => infinity
  | _ => aic (OLS_fit sel)
  end.

(** The claim's words for the rounds that were run.  Each selected variable
    was unused when it was added, its model improved on the AIC held at that
    time by more than 1e-8, and no unused variable gave a lower AIC. *)
Definition greedy (F sel : list string) : Prop :=
  forall (p : list string) (v : string) (q : list string),
    sel = (p ++ v :: q)%list ->
    (v ∈ F) /\ (v ∉ p) /\
    (aic (OLS_fit (p ++ [v])%list) <? aic_of_selection p - 1e-8)%float = true /\
    forall u, u ∈ F -> u ∉ p ->
      (aic (OLS_fit (p ++ [u])%list) <? aic (OLS_fit (p ++ [v])%list))%float = false.

(** The claim's words for the state on termination: no unused variable
    lowers the AIC held by more than 1e-8. *)
Definition no_improvement (F : list string) (st : state) : Prop :=
  forall u, u ∈ F -> u ∉ selected_fwd st ->
    (aic (OLS_fit (selected_fwd st ++ [u])) <? current_aic st - 1e-8)%float = false.

End Loop.
End Forward.

(** ** 4.3) Backward elimination (lines 191-203) *)

Module Backward.
Section Loop.

Variable OLS_fit : list string -> fitted.

Definition aic_drop (selected_bwd : list string) : list (float * string) :=
  map (fun var => (aic (OLS_fit (filter (fun v => v ≠ var) selected_bwd)), var))
      selected_bwd.

Definition round (selected_bwd : list string) : outcome (step (list string)) :=
  let aic_full := aic (OLS_fit selected_bwd) in
  '(best_aic, drop_var) ← py_min fst (aic_drop selected_bwd);
  if (best_aic <? aic_full - 1e-8)%float then
    selected_bwd' ← py_list_remove drop_var selected_bwd;
    mret (Continue selected_bwd')
  else mret (Break selected_bwd).

(** [while True: ...] *)
Fixpoint loop (fuel : nat) (selected_bwd : list string)
  : option (outcome (list string)) :=
  match fuel with
  | 0 => None
  | S fuel' =>
      match round selected_bwd with
      | Return (Continue selected_bwd') => loop fuel' selected_bwd'
      | Return (Break selected_bwd') => Some (Return selected_bwd')
      | Raise e => Some (Raise e)
      end
  end.

Definition backward (factors : list string) : option (outcome (list string)) :=
  loop (S (length factors)) factors.

End Loop.
End Backward.

(** ** 4.4) Stepwise (lines 206-239) *)

Module Stepwise.
Section Loop.

Variable OLS_fit : list string -> fitted.
Variable set_iter : gset string -> list string.

Record state := {
  selected_sw : list string;
  remaining : gset string;
  current_aic : float
}.

Definition add_aic (st : state) : list (float * string) :=
  map (fun var => (aic (OLS_fit (selected_sw st ++ [var])), var))
      (set_iter (remaining st)).

(** Lines 213-224; the boolean is [changed]. *)
Definition add_phase (st : state) : outcome (state * bool) :=
  match add_aic st with
  | [] => mret (st, false)
  | _ =>
      '(best_aic, best_var) ← py_min fst (add_aic st);
      if (best_aic <? current_aic st - 1e-8)%float then
        remaining' ← py_set_remove best_var (remaining st);
        mret ({| selected_sw := selected_sw st ++ [best_var];
                 remaining := remaining';
                 current_aic := best_aic |}, true)
      else mret (st, false)
  end.

(** An empty [candidate] is fitted on the constant alone, which is
    [OLS_fit []]. *)
Definition rem_aic (st : state) : list (float * string * list string) :=
  map (fun var =>
         let candidate := filter (fun v => v ≠ var) (selected_sw st) in
         (aic (OLS_fit candidate), var, candidate))
      (selected_sw st).

(** Lines 226-239. *)
Definition remove_phase (st : state) : outcome (state * bool) :=
  match rem_aic st with
  | [] => mret (st, false)
  | _ =>
      '(best_aic_rem, var_rem, cand) ← py_min (fun x => x.1.1) (rem_aic st);
      let full_aic := aic (OLS_fit (selected_sw st)) in
      if (best_aic_rem <? full_aic - 1e-8)%float then
        selected_sw' ← py_list_remove var_rem (selected_sw st);
        mret ({| selected_sw := selected_sw';
                 remaining := {[var_rem]} ∪ remaining st;
                 current_aic := best_aic_rem |}, true)
      else mret (st, false)
  end.

Definition round (st : state) : outcome (state * bool) :=
  '(st1, changed1) ← add_phase st;
  '(st2, changed2) ← remove_phase st1;
  mret (st2, changed1 || changed2).

(** [while changed: ...] *)
Fixpoint loop (fuel : nat) (st : state) : option (outcome state) :=
  match fuel with
  | 0 => None
  | S fuel' =>
      match round st with
      | Return (st', true) => loop fuel' st'
      | Return (st', false) => Some (Return st')
      | Raise e => Some (Raise e)
      end
  end.

Definition init (factors : list string) : state :=
  {| selected_sw := []; remaining := list_to_set factors;
     current_aic := infinity |}.

(** The selections the loop can hold are lists of distinct factors; they lie
    among the lists of at most |factors| factor names, which bounds the
    number of rounds that change something. *)
Fixpoint words (F : list string) (j : nat) : list (list string) :=
  match j with
  | 0 => [[]]
  | S j' => concat (map (fun x => map (cons x) (words F j')) F)
  end.

Definition selections (F : list string) : list (list string) :=
  concat (map (words F) (seq 0 (S (length F)))).

(** What holds of every state the loop reaches: the unused variables are the
    factors not selected, no variable is selected twice, and the AIC held is
    [np.inf] before anything was selected and the AIC of the selected model
    afterwards. *)
Definition invariant (F : list string) (st : state) : Prop :=
  remaining st = list_to_set F ∖ list_to_set (selected_sw st) /\
  NoDup (selected_sw st) /\
  Forall (fun v => In v F) (selected_sw st) /\
  (selected_sw st = [] /\ current_aic st = infinity \/
   current_aic st = aic (OLS_fit (selected_sw st))).

Definition stepwise (factors : list string) : option (outcome state) :=
  loop (S (length (selections factors))) (init factors).

End Loop.
End Stepwise.

(** ** 8) Ljung-Box (line 295) *)

Module LjungBox.

Definition lags : list nat := [1; 5; 10; 20].

Section Call.
Context {table : Type}.
(** statsmodels' [acorr_ljungbox(x, lags=..., return_df=True)]. *)
Variable acorr_ljungbox : list float -> list nat -> table.

Definition ljung_box (resid : list float) : table :=
  acorr_ljungbox resid lags.
End Call.

(** Q(m) sums terms rho_l^2 / (n - l) for l = 1..m: a series of n values
    supports the lags below n. *)
Definition max_supported_lag (resid : list float) : nat := length resid - 1.

End LjungBox.

(** ** 0) The non-crisis sample (lines 61-89) *)

Module Data.

(** A [pd.Timestamp] at midnight: compared by year, then month, then day. *)
Record date := {
  year : nat;
  month : nat;
  day : nat
}.

Definition date_leb (a b : date) : bool :=
  (year a <? year b)%nat
  || ((year a =? year b)%nat
      && ((month a <? month b)%nat
          || ((month a =? month b)%nat && (day a <=? day b)%nat))).

Definition ymd (y m d : nat) : date := {| year := y; month := m; day := d |}.

Definition crisis_ranges : list (date * date) :=
  [ (ymd 1929 8 1, ymd 1932 6 30);
    (ymd 1937 3 1, ymd 1942 4 30);
    (ymd 1946 5 1, ymd 1949 6 30);
    (ymd 1956 8 1, ymd 1957 10 31);
    (ymd 1961 12 1, ymd 1962 6 30);
    (ymd 1966 2 1, ymd 1966 10 31);
    (ymd 1968 11 1, ymd 1970 5 31);
    (ymd 1973 1 1, ymd 1974 10 31);
    (ymd 1980 11 1, ymd 1982 8 31);
    (ymd 1987 8 1, ymd 1987 12 31);
    (ymd 2000 3 1, ymd 2002 10 31);
    (ymd 2007 10 1, ymd 2009 3 31);
    (ymd 2020 2 1, ymd 2020 3 31) ].

(** [s.between(left, right)] on one value: both ends included; a date that
    did not parse ([NaT], from [errors="coerce"]) compares false with
    everything. *)
Definition between (d : option date) (left right : date) : bool :=
  match d with
  | Some d => date_leb left d && date_leb d right
  | None => false
  end.

(** Lines 81-83, for one row: [mask &= ~between(start, end)] over the
    ranges, from [True]. *)
Definition mask_non_crisis (ranges : list (date * date)) (d : option date) : bool :=
  fold_left (fun mask '(start, end_) => mask && negb (between d start end_))
            ranges true.

(** A row of [fff]: its date and its float cells; a missing value is a NaN. *)
Record row := {
  Date : option date;
  cell : string -> float
}.

(** Dates as [sort_values("Date")] ranks them: ascending, [NaT] last. *)
Definition NaT_last_leb (a b : option date) : bool :=
  match b with
  | None => true
  | Some db =>
      match a with
      | None => false
      | Some da => date_leb da db
      end
  end.

(** Line 54: [fff = fff.sort_values("Date").reset_index(drop=True)], on the
    rows of the file; [reset_index(drop=True)] only relabels.  Rows of equal
    date are kept here in the order of the file: their order in pandas is up
    to numpy's sort kernel, and the properties proved of the sample hold for
    every kernel that returns the rows in date order. *)
Definition sort_values_Date (file : list row) : list row :=
  stable_sort (fun a b => NaT_last_leb (Date a) (Date b)) file.

(** [fff["Y"] = fff["Rp_ew_fi"] - fff["Rf"]] *)
Definition Y (r : row) : float := (cell r "Rp_ew_fi" - cell r "Rf")%float.

(** The value of a column once [Y] is set (a column of the file named "Y"
    is overwritten). *)
Definition value (r : row) (c : string) : float :=
  if decide (c = "Y") then Y r else cell r c.

Definition cols_needed (factors : list string) : list string := "Y" :: factors.

(** What [dropna(subset=cols)] keeps. *)
Definition notna (cols : list string) (r : row) : bool :=
  forallb (fun c => negb (is_nan (value r c))) cols.

(** Lines 85-89, on the frame [fff] that line 54 left. *)
Definition data_nc (fff : list row) (factors : list string) : list row :=
  List.filter (notna (cols_needed factors))
    (List.filter (fun r => mask_non_crisis crisis_ranges (Date r)) fff).

(** [y0 = data_nc["Y"]] *)
Definition y0 (fff : list row) (factors : list string) : list float :=
  map Y (data_nc fff factors).

End Data.

(** ** 5) The VIF table (lines 254-258) *)

Module Vif.

Record vif_row := {
  variavel : string;
  VIF : float
}.

Section Loop.

(** [variance_inflation_factor(X_for_vif.values, i)], by the column index. *)
Variable variance_inflation_factor : nat -> float.

Fixpoint vifs_from (i : nat) (columns : list string) : list vif_row :=
  match columns with
  | [] => []
  | col :: columns' =>
      if decide (col = "const") then vifs_from (S i) columns'
      else {| variavel := col; VIF := variance_inflation_factor i |}
           :: vifs_from (S i) columns'
  end.

(** [for i, col in enumerate(X_for_vif.columns): ...] *)
Definition vifs (columns : list string) : list vif_row := vifs_from 0 columns.

End Loop.
End Vif.

(** ** 5) The condition number (lines 261-265) *)

Module CondNumber.

(** [np.maximum] and [np.minimum] on two floats, as the reduction loop of
    numpy computes them: the running value is kept when it compares at or
    above (at or below) the next one or is a NaN, so a NaN met once stays to
    the end. *)
Definition np_maximum (io1 in2 : float) : float :=
  if (in2 <=? io1)%float || is_nan io1 then io1 else in2.

Definition np_minimum (io1 in2 : float) : float :=
  if (io1 <=? in2)%float || is_nan io1 then io1 else in2.

(** [a.max()] and [a.min()] of a one-dimensional array: [ValueError] on an
    array of size zero. *)
Definition ndarray_max (a : list float) : outcome float :=
  match a with
  | [] => Raise ValueError
  | x :: a' => Return (fold_left np_maximum a' x)
  end.

Definition ndarray_min (a : list float) : outcome float :=
  match a with
  | [] => Raise ValueError
  | x :: a' => Return (fold_left np_minimum a' x)
  end.

(** Line 265, [svals.max()/svals.min()]: a division of two numpy floats,
    which raises nothing (a division by zero is a warning, and line 44
    silences warnings). *)
Definition max_over_min (svals : list float) : outcome float :=
  hi ← ndarray_max svals;
  lo ← ndarray_min svals;
  mret (hi / lo)%float.

Section Svd.

(** The singular values [np.linalg.svd(Xcn.values, full_matrices=False)]
    returns for the standardized columns [final_vars] of the sample, or the
    exception it raises ([LinAlgError] when the decomposition does not
    converge, as on a matrix that holds a NaN).  numpy's code: for the data
    of a run it is a function of the column list. *)
Variable svd : list string -> outcome (list float).

(** Lines 264-265. *)
Definition cond_number (final_vars : list string) : outcome float :=
  svals ← svd final_vars;
  max_over_min svals.

End Svd.
End CondNumber.

(** ** 9) Relative importance (lines 300-310) *)

Module Importance.

Record imp_row := {
  variavel : string;
  delta_R2 : float
}.

(** Descending order with NaN last
    ([sort_values(..., ascending=False)]). *)
Definition nan_last_geb (x y : float) : bool :=
  if is_nan y then true else if is_nan x then false else (y <=? x)%float.

Section Table.

Variable OLS_fit : list string -> fitted.

Definition imp_rows (final_vars : list string) : list imp_row :=
  let full_r2 := rsquared (OLS_fit final_vars) in
  map (fun var =>
         let vars_minus := filter (fun v => v ≠ var) final_vars in
         {| variavel := var;
            delta_R2 := (full_r2 - rsquared (OLS_fit vars_minus))%float |})
      final_vars.

(** [pd.DataFrame(imp_rows).sort_values("delta_R2", ascending=False)]: a
    frame made of no record has no column, and sorting it by "delta_R2"
    raises [KeyError]; [reset_index(drop=True)] only relabels.  Rows of equal
    drop are kept here in the order of [final_vars]: their order in pandas is
    up to numpy's sort kernel, and the properties proved of the table do not
    depend on it. *)
Definition imp_df (final_vars : list string) : outcome (list imp_row) :=
  match imp_rows final_vars with
  | [] => Raise KeyError
  | records =>
      Return (stable_sort (fun a b => nan_last_geb (delta_R2 a) (delta_R2 b))
                          records)
  end.

End Table.
End Importance.

(** ** Concrete runs

    Fit tables of small data sets, given by the columns a design contains
    (a least-squares fit does not depend on the order of its columns). *)

Module Runs.

Definition has (c : string) (cols : list string) : bool := bool_decide (c ∈ cols).

(** Two factors, ln(n) = 4.5.  Minus twice the log-likelihood is 126 for
    the constant alone, 100 with Rm-Rf, 120 with SMB and 97 with both; AIC
    adds 2 per parameter and BIC adds 4.5 per parameter.  SMB buys 3 points
    of likelihood on top of Rm-Rf: more than the 2 AIC charges, less than
    the 4.5 BIC charges. *)
Definition two_factors : list string := ["Rm-Rf"; "SMB"].

Definition fit_two_factors (cols : list string) : fitted :=
  match has "Rm-Rf" cols, has "SMB" cols with
  | true, true => {| aic := 103; bic := 110.5; rsquared := 0.5 |}
  | true, false => {| aic := 104; bic := 109; rsquared := 0.46875 |}
  | false, true => {| aic := 124; bic := 129; rsquared := 0.125 |}
  | false, false => {| aic := 128; bic := 130.5; rsquared := 0 |}
  end.

(** One factor that is pure noise: it lowers minus twice the log-likelihood
    from 126 to 125.5, less than the 2 its parameter costs. *)
Definition noise_factor : list string := ["SMB"].

Definition fit_noise_factor (cols : list string) : fitted :=
  if has "SMB" cols
  then {| aic := 129.5; bic := 134.5; rsquared := 0.00390625 |}
  else {| aic := 128; bic := 130.5; rsquared := 0 |}.

(** HML is a copy of the SMB column: a design with both is rank deficient,
    and the pseudo-inverse fit has the residuals of the fit on one of
    them. *)
Definition duplicated : list string := ["SMB"; "HML"].

Definition rank_deficient_duplicated (cols : list string) : bool :=
  has "SMB" cols && has "HML" cols.

Definition fit_duplicated (cols : list string) : fitted :=
  if has "SMB" cols || has "HML" cols
  then {| aic := 104; bic := 109; rsquared := 0.46875 |}
  else {| aic := 128; bic := 130.5; rsquared := 0 |}.

(** A residual series of three observations. *)
Definition short_resid : list float := [0.5%float; (-1)%float; 0.5%float].

(** A response whose minimum, 5e-7, lies strictly between 0 and 1e-6. *)
Definition tiny_positive : list float := [5e-7%float; 1%float; 2%float].

(** Three rows of a file: one inside the 2007-2009 range, one outside every
    range, one whose date did not parse and whose SMB cell is missing. *)
Definition cells (rp rf smb : float) (c : string) : float :=
  if decide (c = "Rp_ew_fi") then rp
  else if decide (c = "Rf") then rf
  else if decide (c = "SMB") then smb
  else nan.

Definition crisis_row : Data.row :=
  {| Data.Date := Some (Data.ymd 2008 9 30);
     Data.cell := cells 0.5 0.25 1 |}.

Definition calm_row : Data.row :=
  {| Data.Date := Some (Data.ymd 2010 1 31);
     Data.cell := cells 1.5 0.25 2 |}.

Definition undated_row : Data.row :=
  {| Data.Date := None; Data.cell := cells 1 0.5 nan |}.

Definition small_file : list Data.row := [crisis_row; calm_row; undated_row].

(** The same rows as a file has them when it is not in date order. *)
Definition unsorted_file : list Data.row := [undated_row; calm_row; crisis_row].

(** HML a copy of SMB on eight observations: the two standardized columns
    are equal, each of norm sqrt 8, and the singular values of the matrix
    are 4 and 0. *)
Definition svd_duplicated (final_vars : list string) : outcome (list float) :=
  Return [4%float; 0%float].

(** The same with the smallest singular value as rounding leaves it, near
    zero. *)
Definition svd_near_duplicated (final_vars : list string) : outcome (list float) :=
  Return [4%float; 0x1p-52%float].

(** The VIFs of a design with a constant and two regressors correlated at
    0.5: 1 / (1 - 0.25) for both, by column index. *)
Definition vif_two_factors (i : nat) : float :=
  match i with
  | 1 | 2 => (1 / 0.75)%float
  | _ => nan
  end.

End Runs.

(** * Properties *)

(** ** The order of floats

    [<?] is a strict order that no NaN takes part in; on the other floats
    it is total up to the equality of the two zeros. *)

Section FloatOrder.

Lemma SFltb_trans a b c :
  SFltb a b = true -> SFltb b c = true -> SFltb a c = true.
Proof.
  unfold SFltb.
  destruct a as [sa|sa| |sa ma ea], b as [sb|sb| |sb mb eb],
           c as [sc|sc| |sc mc ec]; simpl;
  repeat match goal with s : bool |- _ => destruct s end;
  simpl; try congruence;
  destruct (Z.compare_spec ea eb), (Z.compare_spec eb ec);
  simpl; try congruence;
  destruct (Z.compare_spec ea ec); simpl; try congruence; try lia; subst;
  rewrite ?Z.compare_refl in *;
  fold (Pos.compare ma mb); fold (Pos.compare mb mc); fold (Pos.compare ma mc);
  destruct (Pos.compare_spec ma mb), (Pos.compare_spec mb mc),
           (Pos.compare_spec ma mc); simpl; try congruence; try lia.
Qed.

Lemma SFltb_irrefl a : SFltb a a = false.
Proof.
  unfold SFltb.
  destruct a as [s|s| |s m e]; simpl; try reflexivity;
  destruct s; try reflexivity;
  rewrite Z.compare_refl; fold (Pos.compare m m);
  rewrite Pos.compare_refl; reflexivity.
Qed.

(** A float that is not below [b] and that [b] is not below ... *)
Lemma SFltb_negtrans a b c :
  SFeqb b b = true -> SFltb a c = true ->
  SFltb a b = true \/ SFltb b c = true.
Proof.
  unfold SFltb, SFeqb.
  destruct a as [sa|sa| |sa ma ea], b as [sb|sb| |sb mb eb],
           c as [sc|sc| |sc mc ec]; simpl;
  repeat match goal with s : bool |- _ => destruct s end;
  simpl; try congruence; auto;
  intros _;
  destruct (Z.compare_spec ea ec); simpl; try congruence;
  destruct (Z.compare_spec ea eb), (Z.compare_spec eb ec);
  simpl; auto; try lia; subst;
  fold (Pos.compare ma mb); fold (Pos.compare mb mc); fold (Pos.compare ma mc);
  destruct (Pos.compare_spec ma mb), (Pos.compare_spec mb mc),
           (Pos.compare_spec ma mc); simpl; auto; try congruence; try lia.
Qed.

Lemma ltb_trans (a b c : float) :
  (a <? b)%float = true -> (b <? c)%float = true -> (a <? c)%float = true.
Proof. rewrite !ltb_spec. apply SFltb_trans. Qed.

Lemma ltb_irrefl (a : float) : (a <? a)%float = false.
Proof. rewrite ltb_spec. apply SFltb_irrefl. Qed.

Lemma ltb_negtrans (a b c : float) :
  is_nan b = false -> (a <? c)%float = true ->
  (a <? b)%float = true \/ (b <? c)%float = true.
Proof.
  unfold is_nan. rewrite !ltb_spec, FloatAxioms.eqb_spec. intros Hb.
  apply SFltb_negtrans. now destruct (SFeqb (Prim2SF b) (Prim2SF b)).
Qed.

Lemma ltb_not_nan_l (a b : float) : (a <? b)%float = true -> is_nan a = false.
Proof.
  unfold is_nan. rewrite ltb_spec, FloatAxioms.eqb_spec. unfold SFltb, SFeqb.
  destruct (Prim2SF a) as [s|s| |s m e]; simpl; try congruence;
  destruct s; intros _; try reflexivity;
  rewrite Z.compare_refl; fold (Pos.compare m m);
  rewrite Pos.compare_refl; reflexivity.
Qed.

Lemma ltb_not_nan_r (a b : float) : (a <? b)%float = true -> is_nan b = false.
Proof.
  unfold is_nan. rewrite ltb_spec, FloatAxioms.eqb_spec. unfold SFltb, SFeqb.
  destruct (Prim2SF a) as [sa|sa| |sa ma ea], (Prim2SF b) as [s|s| |s m e];
    simpl; try congruence;
  destruct s; intros _; try reflexivity;
  rewrite Z.compare_refl; fold (Pos.compare m m);
  rewrite Pos.compare_refl; reflexivity.
Qed.

Lemma ltb_zero_leb (m : float) :
  (0 <? m)%float = true -> (m <=? 0)%float = false.
Proof.
  rewrite ltb_spec, leb_spec. unfold SFltb, SFleb.
  change (Prim2SF 0) with (S754_zero false).
  destruct (Prim2SF m) as [s|s| |s mm e]; simpl; try congruence;
  destruct s; congruence.
Qed.

(** Adding [0.0] changes no float other than the negative zero. *)
Lemma add_zero_r (y : float) :
  Prim2SF y <> S754_zero true -> (y + 0)%float = y.
Proof.
  intros Hy. apply Prim2SF_inj. rewrite add_spec.
  change (Prim2SF 0) with (S754_zero false). unfold SF64add, SFadd.
  destruct (Prim2SF y) as [s|s| |s m e]; try reflexivity.
  destruct s; [congruence | reflexivity].
Qed.

Lemma negative_zero_below (y m : float) :
  Prim2SF y = S754_zero true -> (0 <? m)%float = true -> (y <? m)%float = true.
Proof.
  intros Hy. rewrite !ltb_spec, Hy.
  change (Prim2SF 0) with (S754_zero false). unfold SFltb.
  destruct (Prim2SF m) as [s|s| |s mm e]; simpl; try congruence.
Qed.

End FloatOrder.

(** ** [min(..., key=...)] *)

Section PyMin.
Context {A : Type} (key : A -> float).

Lemma min_from_In best l : In (min_from key best l) (best :: l).
Proof.
  revert best. induction l as [|x l IH]; intros best; simpl.
  - now left.
  - destruct (IH (if (key x <? key best)%float then x else best)) as [E|H].
    + destruct (key x <? key best)%float; rewrite <- E; auto.
    + auto.
Qed.

(** Once the running minimum has a NaN key nothing replaces it. *)
Lemma min_from_nan best l :
  is_nan (key best) = true -> min_from key best l = best.
Proof.
  intros Hn. induction l as [|x l IH]; simpl; [reflexivity|].
  destruct (key x <? key best)%float eqn:E; [|exact IH].
  apply ltb_not_nan_r in E. congruence.
Qed.

(** No item has a key strictly below the key of the item [min] returns. *)
Lemma min_from_lower best l x :
  In x (best :: l) -> (key x <? key (min_from key best l))%float = false.
Proof.
  revert best x. induction l as [|y l IH]; intros best x Hx.
  - destruct Hx as [<-|[]]. apply ltb_irrefl.
  - simpl. set (best' := if (key y <? key best)%float then y else best).
    assert (Hb : (key best' <? key (min_from key best' l))%float = false)
      by (apply IH; now left).
    destruct Hx as [<-|[<-|Hx]].
    + (* the previous minimum *)
      subst best'. destruct (key y <? key best)%float eqn:E; [|exact Hb].
      destruct (key best <? key (min_from key y l))%float eqn:E'; [|reflexivity].
      rewrite (ltb_trans _ _ _ E E') in Hb. discriminate.
    + (* the item just read *)
      subst best'. destruct (key y <? key best)%float eqn:E; [exact Hb|].
      destruct (is_nan (key best)) eqn:Hn.
      * rewrite (min_from_nan _ _ Hn). exact E.
      * destruct (key y <? key (min_from key best l))%float eqn:E'; [|reflexivity].
        destruct (ltb_negtrans _ _ _ Hn E') as [H|H]; congruence.
    + apply IH. now right.
Qed.

Lemma py_min_Return l r :
  py_min key l = Return r ->
  In r l /\ forall x, In x l -> (key x <? key r)%float = false.
Proof.
  destruct l as [|x l]; simpl; [discriminate|].
  intros [= <-]. split; [apply min_from_In | apply min_from_lower].
Qed.

Lemma py_min_nonempty l : l <> [] -> exists r, py_min key l = Return r.
Proof. destruct l; [congruence | eauto]. Qed.

Lemma py_min_Raise l e : py_min key l = Raise e -> l = [] /\ e = ValueError.
Proof. destruct l; simpl; [intros [= <-]; auto | discriminate]. Qed.

End PyMin.

(** ** Box-Cox: the shift and the adoption rule *)

Section BoxCoxProperties.
Import BoxCox.

Lemma series_min_min_from y1 ys :
  series_min (y1 :: ys) = min_from (fun x => x) y1 ys.
Proof.
  simpl. revert y1. induction ys as [|y ys IH]; intros y1; simpl; [reflexivity|].
  apply IH.
Qed.

(** No value of the series lies below its minimum. *)
Lemma series_min_lower y0 y :
  In y y0 -> (y <? series_min y0)%float = false.
Proof.
  destruct y0 as [|y1 ys]; [intros []|]. intros Hy.
  rewrite series_min_min_from.
  exact (min_from_lower (fun x => x) y1 ys y Hy).
Qed.

Lemma y_pos_unshifted y0 :
  (0 <? series_min y0)%float = true -> y_pos y0 = y0.
Proof.
  intros Hpos. unfold y_pos, shift. rewrite (ltb_zero_leb _ Hpos).
  rewrite <- (map_id y0) at 2. apply map_ext_in. intros y Hy.
  apply add_zero_r. intros Hz.
  pose proof (negative_zero_below _ _ Hz Hpos) as Hlt.
  rewrite (series_min_lower _ _ Hy) in Hlt. discriminate.
Qed.

(** C4, as the code has it: the response is shifted once, every
    observation by the same amount.  When the minimum of the response is
    zero or negative the amount is 1e-6 - min and [y_pos] is the response
    with 1e-6 - min added to every observation; when the minimum is positive
    the amount is zero and [y_pos] is the response exactly as it is, also
    when the minimum lies below the margin 1e-6. *)
Theorem shift_only_when_nonpositive (y0 : list float) :
  length (y_pos y0) = length y0 /\
  ((series_min y0 <=? 0)%float = true ->
     shift (series_min y0) = (1e-6 - series_min y0)%float /\
     y_pos y0 = map (fun y => (y + (1e-6 - series_min y0))%float) y0) /\
  ((0 <? series_min y0)%float = true ->
     shift (series_min y0) = 0%float /\ y_pos y0 = y0) /\
  ((0 <? series_min y0)%float = true -> (series_min y0 <? 1e-6)%float = true ->
     shift (series_min y0) = 0%float /\ y_pos y0 = y0).
Proof.
  assert (Hpos : (0 <? series_min y0)%float = true ->
                 shift (series_min y0) = 0%float /\ y_pos y0 = y0).
  { intros H. split; [|now apply y_pos_unshifted].
    unfold shift. now rewrite (ltb_zero_leb _ H). }
  split; [unfold y_pos; apply length_map|].
  split; [|split; [exact Hpos | intros H _; exact (Hpos H)]].
  intros H.
  assert (Hs : shift (series_min y0) = (1e-6 - series_min y0)%float)
    by (unfold shift; now rewrite H).
  split; [exact Hs|]. unfold y_pos. now rewrite Hs.
Qed.

(** C4 fails as stated: the minimum 5e-7 lies strictly between 0 and the
    margin 1e-6, max(0, 1e-6 - min) is positive, and the shift the code
    applies is zero: the response enters Box-Cox as it is. *)
Lemma shift_zero_inside_margin :
  (0 <? series_min Runs.tiny_positive)%float = true /\
  (series_min Runs.tiny_positive <? 1e-6)%float = true /\
  shift (series_min Runs.tiny_positive) = 0%float /\
  spec_shift (series_min Runs.tiny_positive)
    = (1e-6 - series_min Runs.tiny_positive)%float /\
  (0 <? spec_shift (series_min Runs.tiny_positive))%float = true /\
  (shift (series_min Runs.tiny_positive)
     =? spec_shift (series_min Runs.tiny_positive))%float = false /\
  y_pos Runs.tiny_positive = Runs.tiny_positive.
Proof. vm_compute. repeat split; reflexivity. Qed.

Variable boxcox : list float -> option (list float * float).

(** C5: the fits use the transformed response exactly when [boxcox]
    returned and its lambda has |lambda - 1| > 0.10; in every other case,
    the failure of [boxcox] included, they use the original response.  The
    step is a total function: no case leaves it without a response. *)
Theorem box_cox_adoption (y0 : list float) :
  (forall y_bc lambda_bc,
      boxcox (y_pos y0) = Some (y_bc, lambda_bc) ->
      (0.10 <? abs (lambda_bc - 1.0))%float = true ->
      y_for_fit boxcox y0 = y_bc /\ y_label boxcox y0 = Y_boxcox lambda_bc) /\
  (forall y_bc lambda_bc,
      boxcox (y_pos y0) = Some (y_bc, lambda_bc) ->
      (0.10 <? abs (lambda_bc - 1.0))%float = false ->
      y_for_fit boxcox y0 = y0 /\ y_label boxcox y0 = Y_sem_transformacao) /\
  (boxcox (y_pos y0) = None ->
      y_for_fit boxcox y0 = y0 /\ y_label boxcox y0 = Y_sem_transformacao) /\
  ((exists lambda_bc, y_label boxcox y0 = Y_boxcox lambda_bc) <->
   (exists y_bc lambda_bc,
      boxcox (y_pos y0) = Some (y_bc, lambda_bc) /\
      (0.10 <? abs (lambda_bc - 1.0))%float = true)).
Proof.
  unfold y_for_fit, y_label, fit_response, try_boxcox.
  destruct (boxcox (y_pos y0)) as [[y_bc l]|] eqn:E; simpl.
  - destruct (0.10 <? abs (l - 1.0))%float eqn:T; simpl;
      (split; [|split; [|split; [|split]]]).
    + now intros ? ? [= <- <-] _.
    + intros ? ? [= <- <-] ?. congruence.
    + discriminate.
    + intros _. eauto.
    + intros _. eauto.
    + intros ? ? [= <- <-] ?. congruence.
    + now intros ? ? [= <- <-] _.
    + discriminate.
    + intros [? [=]].
    + intros (? & ? & [= <- <-] & ?). congruence.
  - split; [|split; [|split; [|split]]]; try discriminate.
    + now intros _.
    + intros [? [=]].
    + intros (? & ? & [=] & _).
Qed.

End BoxCoxProperties.

(** ** Ljung-Box: the horizons *)

Section LjungBoxProperties.
Import LjungBox.

(** C7, as the code has it: the test is requested at the horizons 1, 5, 10
    and 20 for every residual series, whatever its length; nothing is
    truncated, and all four horizons are lags the series supports exactly
    when it has at least 21 values. *)
Theorem ljung_box_fixed_lags {table : Type}
    (acorr_ljungbox : list float -> list nat -> table) (resid : list float) :
  ljung_box acorr_ljungbox resid = acorr_ljungbox resid [1; 5; 10; 20] /\
  (Forall (fun h => h <= max_supported_lag resid) lags <-> 21 <= length resid).
Proof.
  split; [reflexivity|]. unfold lags, max_supported_lag.
  rewrite !Forall_cons, Forall_nil. lia.
Qed.

(** C7 fails as stated: for a series of three residuals the horizons
    handed to the test are still 1, 5, 10 and 20, and 20 exceeds the
    largest supported lag, 2. *)
Lemma ljung_box_lags_not_truncated :
  ljung_box (fun _ requested => requested) Runs.short_resid = [1; 5; 10; 20] /\
  max_supported_lag Runs.short_resid = 2 /\
  Exists (fun h => Nat.ltb (max_supported_lag Runs.short_resid) h = true)
         (ljung_box (fun _ requested => requested) Runs.short_resid).
Proof.
  repeat split; try reflexivity.
  apply Exists_cons_tl, Exists_cons_hd. reflexivity.
Qed.

End LjungBoxProperties.

(** ** pandas: sorting moves labels, [.loc] reads them *)

Section Frames.

Lemma insert_sorted_perm {A} (le : A -> A -> bool) x l :
  insert_sorted le x l ≡ₚ x :: l.
Proof.
  induction l as [|y l IH]; simpl; [reflexivity|].
  destruct (le x y); [reflexivity|].
  rewrite IH. apply Permutation_swap.
Qed.

Lemma stable_sort_perm {A} (le : A -> A -> bool) l : stable_sort le l ≡ₚ l.
Proof.
  induction l as [|x l IH]; simpl; [reflexivity|].
  rewrite insert_sorted_perm. now rewrite IH.
Qed.

(** With distinct labels, the row found under a label is the only row that
    carries it. *)
Lemma find_label_Some (l : list (nat * subset_row)) n p :
  NoDup (map fst l) ->
  List.find (fun q => Nat.eqb q.1 n) l = Some p <-> In p l /\ p.1 = n.
Proof.
  induction l as [|q l IH]; simpl; intros Hnd.
  - split; [discriminate | intros [[] _]].
  - apply NoDup_cons in Hnd as [Hq Hnd].
    destruct (Nat.eqb_spec q.1 n) as [E|E].
    + split.
      * intros [= <-]. auto.
      * intros [[<-|Hp] Hn]; [reflexivity|].
        exfalso. apply Hq. rewrite E, <- Hn.
        apply list_elem_of_In, in_map, Hp.
    + rewrite (IH Hnd). split.
      * intros [? ?]. auto.
      * intros [[<-|Hp] Hn]; [congruence | auto].
Qed.

Lemma find_label_perm (l l' : list (nat * subset_row)) n :
  NoDup (map fst l) -> l ≡ₚ l' ->
  List.find (fun q => Nat.eqb q.1 n) l' = List.find (fun q => Nat.eqb q.1 n) l.
Proof.
  intros Hnd Hp.
  assert (Hnd' : NoDup (map fst l')).
  { assert (Hm : map fst l ≡ₚ map fst l') by now apply Permutation_map.
    now rewrite <- Hm. }
  destruct (List.find _ l) as [p|] eqn:E.
  - apply (find_label_Some _ _ _ Hnd) in E as [Hin Hn].
    apply (find_label_Some _ _ _ Hnd'). split; [|exact Hn].
    eapply Permutation_in; eauto.
  - destruct (List.find _ l') as [p|] eqn:E'; [|reflexivity].
    apply (find_label_Some _ _ _ Hnd') in E' as [Hin Hn].
    assert (Some p = None); [|discriminate].
    rewrite <- E. symmetry. apply (find_label_Some _ _ _ Hnd). split; [|exact Hn].
    eapply Permutation_in; [symmetry|]; eauto.
Qed.

Lemma reset_index_labels df :
  map fst (rows (reset_index df)) = seq 0 (length (rows df)).
Proof.
  unfold reset_index; simpl.
  generalize 0. induction (rows df) as [|p l IH]; intros n; simpl; [reflexivity|].
  now rewrite IH.
Qed.

(** Sorting a frame again leaves what [.loc] finds under a label: after
    [reset_index], label 0 stays on the row that was first. *)
Lemma loc_vars_after_sort by_ df df' n :
  NoDup (map fst (rows df)) ->
  sort_values by_ df = Return df' ->
  loc_vars n df' = loc_vars n df.
Proof.
  intros Hnd. unfold sort_values.
  destruct (forallb _ by_); [|discriminate].
  destruct (sort_keys by_) as [keys|]; [|discriminate].
  intros [= <-]. unfold loc_vars; simpl.
  rewrite (find_label_perm (rows df)); auto.
  symmetry. apply stable_sort_perm.
Qed.

End Frames.

(** ** [combinations]: every subset, once *)

Section Enumeration.
Context {A : Type}.
Implicit Types (l s : list A) (k m : nat).

(** The results of [combinations l k] are the subsequences of [l] of
    length [k]. *)
Lemma combinations_In l k s :
  In s (combinations l k) <-> s `sublist_of` l /\ length s = k.
Proof.
  revert k s. induction l as [|x t IH]; intros [|k] s; simpl.
  - split.
    + intros [<-|[]]. split; [constructor | reflexivity].
    + intros [_ Hs]. left. symmetry. now apply nil_length_inv.
  - split; [intros [] | intros [Hs Hl]].
    apply sublist_nil_r in Hs. subst. discriminate.
  - split.
    + intros [<-|[]]. split; [apply sublist_nil_l | reflexivity].
    + intros [_ Hs]. left. symmetry. now apply nil_length_inv.
  - rewrite in_app_iff, in_map_iff, sublist_cons_r. split.
    + intros [(s' & <- & Hs')|Hs].
      * apply IH in Hs' as [? ?]. split; [right; eauto | simpl; congruence].
      * apply IH in Hs as [? ?]. split; [left|]; assumption.
    + intros [[Hs|(s' & -> & Hs')] Hl].
      * right. apply IH. auto.
      * left. exists s'. split; [reflexivity|]. apply IH.
        split; [assumption | simpl in Hl; congruence].
Qed.

Lemma combinations_0 l : combinations l 0 = [[]].
Proof. now destruct l. Qed.

Lemma list_sum_zero (f : nat -> nat) (ks : list nat) :
  (forall i, In i ks -> f i = 0) -> list_sum (map f ks) = 0.
Proof.
  induction ks as [|i ks IH]; simpl; intros H; [reflexivity|].
  rewrite (H i), IH; auto.
Qed.

Lemma list_sum_seq_shift (f : nat -> nat) a n :
  list_sum (map f (seq (S a) n)) = list_sum (map (fun i => f (S i)) (seq a n)).
Proof.
  revert a. induction n as [|n IH]; intros a; simpl; [reflexivity|].
  now rewrite IH.
Qed.

Lemma list_sum_plus (f g : nat -> nat) (ks : list nat) :
  list_sum (map (fun i => f i + g i) ks)
  = list_sum (map f ks) + list_sum (map g ks).
Proof. induction ks as [|i ks IH]; simpl; [reflexivity | rewrite IH; lia]. Qed.

Lemma list_sum_seq_0 (f : nat -> nat) n :
  list_sum (map f (seq 0 (S n)))
  = f 0 + list_sum (map (fun i => f (S i)) (seq 0 n)).
Proof.
  change (list_sum (map f (seq 0 (S n))))
    with (f 0 + list_sum (map f (seq 1 n))).
  now rewrite list_sum_seq_shift.
Qed.

(** Summed over all lengths, the subsequences of [l] are 2^|l|. *)
Lemma combinations_count_all l m :
  length l < m ->
  list_sum (map (fun i => length (combinations l i)) (seq 0 m)) = 2 ^ length l.
Proof.
  revert m. induction l as [|x t IH]; intros [|m] Hm; try (simpl in Hm; lia).
  - rewrite list_sum_seq_0, list_sum_zero; reflexivity.
  - simpl in Hm. assert (Ht : length t < m) by lia.
    rewrite list_sum_seq_0.
    replace (list_sum (map (fun i => length (combinations (x :: t) (S i))) (seq 0 m)))
      with (list_sum (map (fun i => length (combinations t i)
                                   + length (combinations t (S i))) (seq 0 m))).
    2:{ f_equal. apply map_ext. intros i. simpl.
        now rewrite length_app, length_map. }
    rewrite list_sum_plus, (IH m Ht).
    pose proof (IH (S m) ltac:(lia)) as HS.
    rewrite list_sum_seq_0, combinations_0 in HS.
    change (length (x :: t)) with (S (length t)).
    rewrite Nat.pow_succ_r'. simpl in *. lia.
Qed.

(** [k] running from 1 to |l|: all non-empty subsets, 2^|l| - 1 of them. *)
Lemma combinations_count l :
  length (concat (map (combinations l) (seq 1 (length l)))) = 2 ^ length l - 1.
Proof.
  rewrite length_concat, map_map.
  pose proof (combinations_count_all l (S (length l)) ltac:(lia)) as H.
  rewrite list_sum_seq_0, combinations_0 in H.
  rewrite (list_sum_seq_shift (fun i => length (combinations l i))).
  cbn beta in *. simpl length in H. lia.
Qed.

Lemma nonempty_combinations_In l s :
  In s (concat (map (combinations l) (seq 1 (length l))))
  <-> s `sublist_of` l /\ s <> [].
Proof.
  rewrite in_concat. split.
  - intros (c & Hc & Hs). apply in_map_iff in Hc as (i & <- & Hi).
    apply in_seq in Hi. apply combinations_In in Hs as [Hs Hl].
    split; [assumption|]. intros ->. simpl in Hl. lia.
  - intros [Hs Hne]. exists (combinations l (length s)). split.
    + apply in_map, in_seq. pose proof (sublist_length _ _ Hs).
      destruct s; [congruence | simpl in *; lia].
    + apply combinations_In. auto.
Qed.

End Enumeration.

(** ** The all-subsets table and the final choice *)

Section ExhaustiveProperties.
Import Exhaustive.
Variable OLS_fit : list string -> fitted.

Lemma results_subset_vars (F : list string) :
  map vars (results_subset OLS_fit F)
  = concat (map (combinations F) (seq 1 (length F))).
Proof.
  unfold results_subset. rewrite concat_map, map_map. f_equal.
  apply map_ext. intros i. rewrite map_map. apply map_id.
Qed.

Lemma results_subset_length (F : list string) :
  length (results_subset OLS_fit F) = 2 ^ length F - 1.
Proof.
  rewrite <- (length_map vars), results_subset_vars. apply combinations_count.
Qed.

Lemma results_subset_scores (F : list string) :
  Forall (fun r => AIC r = aic (OLS_fit (vars r)) /\
                   BIC r = bic (OLS_fit (vars r)) /\
                   R2 r = rsquared (OLS_fit (vars r)))
         (results_subset OLS_fit F).
Proof.
  apply List.Forall_forall. intros r Hr. unfold results_subset in Hr.
  apply in_concat in Hr as (c & Hc & Hr).
  apply in_map_iff in Hc as (i & <- & _).
  apply in_map_iff in Hr as (s & <- & _). simpl. auto.
Qed.

(** The defect behind C1 and C2.  [res_df] is ranked by (AIC, BIC) and then
    relabelled, so label 0 sits on the AIC-best row; [sort_values("BIC")]
    moves that label along with its row, and [.loc[0, "vars"]] reads by
    label: [best_bic_vars] is [best_aic_vars], whatever the BIC column
    holds and however ties are ordered. *)
Lemma best_bic_vars_is_best_aic_vars (F : list string) :
  best_bic_vars OLS_fit F = best_aic_vars OLS_fit F.
Proof.
  unfold best_bic_vars, best_aic_vars, res_df.
  destruct (sort_values ["AIC"; "BIC"] (pd_DataFrame (results_subset OLS_fit F)))
    as [df|e] eqn:E; [|reflexivity].
  cbn [mbind outcome_bind mret outcome_ret].
  assert (Hc : bool_decide ("BIC" ∈ columns df) = true).
  { revert E. unfold sort_values. cbn [forallb].
    destruct (bool_decide ("AIC" ∈ _)); [|discriminate].
    destruct (bool_decide ("BIC" ∈ _)) eqn:Hb; [|discriminate].
    simpl. intros [= <-]. exact Hb. }
  assert (Hs : exists df', sort_values ["BIC"] (reset_index df) = Return df').
  { unfold sort_values. cbn [forallb reset_index columns]. rewrite Hc.
    simpl. eauto. }
  destruct Hs as [df' Hs]. rewrite Hs.
  apply (loc_vars_after_sort ["BIC"]); [|exact Hs].
  rewrite reset_index_labels. apply NoDup_seq.
Qed.

(** With no factor column in the file the ranking itself fails: the frame
    built from an empty list has no column "AIC" to sort by, and line 242
    is never reached. *)
Lemma final_vars_empty_universe : final_vars OLS_fit [] = Raise KeyError.
Proof. reflexivity. Qed.

End ExhaustiveProperties.

(** C1 fails on the code (a defect of the code, not of the claim): on the
    two-factor run the final set is the AIC-best subset {Rm-Rf, SMB}, while
    the subset of minimal BIC is {Rm-Rf}, whose model has the strictly
    smaller BIC. *)
Theorem final_vars_misses_bic_minimum :
  Exhaustive.final_vars Runs.fit_two_factors Runs.two_factors
    = Return ["Rm-Rf"; "SMB"] /\
  Exhaustive.brute_force Runs.fit_two_factors bic Runs.two_factors
    = Return ["Rm-Rf"] /\
  (bic (Runs.fit_two_factors ["Rm-Rf"])
     <? bic (Runs.fit_two_factors ["Rm-Rf"; "SMB"]))%float = true.
Proof. vm_compute. repeat split; reflexivity. Qed.

(** C2 fails on the code, by the same defect: the table has its 2^2 - 1 rows
    and the reported best-by-AIC subset is the brute-force AIC minimiser, but
    the reported best-by-BIC subset is that same subset and not the
    brute-force BIC minimiser. *)
Theorem best_bic_vars_not_brute_force :
  length (Exhaustive.results_subset Runs.fit_two_factors Runs.two_factors) = 3 /\
  Exhaustive.best_aic_vars Runs.fit_two_factors Runs.two_factors
    = Exhaustive.brute_force Runs.fit_two_factors aic Runs.two_factors /\
  Exhaustive.best_bic_vars Runs.fit_two_factors Runs.two_factors
    = Return ["Rm-Rf"; "SMB"] /\
  Exhaustive.brute_force Runs.fit_two_factors bic Runs.two_factors
    = Return ["Rm-Rf"].
Proof. vm_compute. repeat split; reflexivity. Qed.

(** ** No candidate is skipped *)

(** C8, as the code has it: the loops hold no test of rank and no handler.
    The table has one row for every non-empty subset of the factors, 2^k - 1
    rows, each with the scores of its own fit, and every round of the
    forward, backward and stepwise loops fits one candidate per unused,
    respectively per selected, variable: a rank-deficient candidate is fitted
    and ranked like any other. *)
Theorem no_candidate_is_skipped
    (OLS_fit : list string -> fitted) (set_iter : gset string -> list string)
    (F : list string) :
  map vars (Exhaustive.results_subset OLS_fit F)
    = concat (map (combinations F) (seq 1 (length F))) /\
  length (Exhaustive.results_subset OLS_fit F) = 2 ^ length F - 1 /\
  Forall (fun r => AIC r = aic (OLS_fit (vars r)) /\
                   BIC r = bic (OLS_fit (vars r)) /\
                   R2 r = rsquared (OLS_fit (vars r)))
         (Exhaustive.results_subset OLS_fit F) /\
  (forall st, map snd (Forward.aic_candidates OLS_fit set_iter st)
              = set_iter (Forward.remaining st)) /\
  (forall selected_bwd, map snd (Backward.aic_drop OLS_fit selected_bwd)
                        = selected_bwd) /\
  (forall st, map snd (Stepwise.add_aic OLS_fit set_iter st)
              = set_iter (Stepwise.remaining st)) /\
  (forall st, map (fun x => x.1.2) (Stepwise.rem_aic OLS_fit st)
              = Stepwise.selected_sw st).
Proof.
  split; [apply results_subset_vars|].
  split; [apply results_subset_length|].
  split; [apply results_subset_scores|].
  unfold Forward.aic_candidates, Backward.aic_drop, Stepwise.add_aic,
    Stepwise.rem_aic.
  repeat split; intros; rewrite map_map; apply map_id.
Qed.

(** C8 fails as stated: HML duplicates SMB, the design on both columns is
    rank deficient, and its row stands in the table with the others. *)
Lemma rank_deficient_candidate_is_ranked :
  Runs.rank_deficient_duplicated ["SMB"; "HML"] = true /\
  map vars (Exhaustive.results_subset Runs.fit_duplicated Runs.duplicated)
    = [["SMB"]; ["HML"]; ["SMB"; "HML"]] /\
  Exists (fun r => Runs.rank_deficient_duplicated (vars r) = true)
         (Exhaustive.results_subset Runs.fit_duplicated Runs.duplicated).
Proof.
  split; [reflexivity|]. split; [reflexivity|].
  apply Exists_cons_tl, Exists_cons_tl, Exists_cons_hd. reflexivity.
Qed.

(** ** Python containers *)

Section Containers.

Lemma size_list_to_set_le (l : list string) :
  size (list_to_set l : gset string) <= length l.
Proof.
  induction l as [|x l IH].
  - change (size (∅ : gset string) <= 0). now rewrite size_empty.
  - change (size ({[x]} ∪ list_to_set l : gset string) <= S (length l)).
    rewrite size_union_alt, size_singleton.
    assert (Hs : (list_to_set l ∖ {[x]} : gset string) ⊆ list_to_set l)
      by (intros y Hy; now apply elem_of_difference in Hy as [? _]).
    apply subseteq_size in Hs. lia.
Qed.

Lemma py_set_remove_In x (s : gset string) :
  x ∈ s -> py_set_remove x s = Return (s ∖ {[x]}).
Proof. intros H. unfold py_set_remove. now rewrite decide_True. Qed.

Lemma py_list_remove_In x (l : list string) :
  x ∈ l ->
  exists l', py_list_remove x l = Return l' /\ length l = S (length l').
Proof.
  induction l as [|y l IH]; intros Hx; [now apply elem_of_nil in Hx|].
  simpl. destruct (decide (y = x)) as [->|Hne]; [eauto|].
  apply elem_of_cons in Hx as [->|Hx]; [congruence|].
  destruct (IH Hx) as (l' & -> & Hl). simpl. eexists. split; [reflexivity|].
  simpl. congruence.
Qed.

End Containers.

(** ** Forward selection *)

Section ForwardProperties.
Import Forward.

Variable OLS_fit : list string -> fitted.
Variable set_iter : gset string -> list string.
Variable F : list string.

(** Walking a set visits each element once, in some order. *)
Hypothesis set_iter_perm : forall X, set_iter X ≡ₚ elements X.
(** Every fitted AIC is a number. *)
Hypothesis aic_not_nan : forall cols, is_nan (aic (OLS_fit cols)) = false.

Lemma set_iter_In X x : In x (set_iter X) <-> x ∈ X.
Proof.
  rewrite <- list_elem_of_In, (set_iter_perm X). apply elem_of_elements.
Qed.

Lemma set_iter_nonempty X : X <> ∅ -> set_iter X <> [].
Proof.
  intros HX Hnil. apply HX. apply set_eq. intros x.
  rewrite <- set_iter_In, Hnil. simpl. set_solver.
Qed.

(** What holds of every state the loop reaches. *)
Lemma forward_round_cases (st : state) :
  remaining st = list_to_set F ∖ list_to_set (selected_fwd st) ->
  current_aic st = aic_of_selection OLS_fit (selected_fwd st) ->
  greedy OLS_fit F (selected_fwd st) ->
  remaining st <> ∅ ->
  (exists st', round OLS_fit set_iter st = Return (Continue st') /\
               remaining st' = list_to_set F ∖ list_to_set (selected_fwd st') /\
               current_aic st' = aic_of_selection OLS_fit (selected_fwd st') /\
               greedy OLS_fit F (selected_fwd st') /\
               size (remaining st') < size (remaining st)) \/
  (round OLS_fit set_iter st = Return (Break st) /\ no_improvement OLS_fit F st).
Proof.
  intros Hrem Hcur Hgreedy Hne.
  unfold round.
  destruct (py_min_nonempty fst (aic_candidates OLS_fit set_iter st))
    as [[best_aic best_var] Hmin].
  { unfold aic_candidates. intros Hnil. apply map_eq_nil in Hnil.
    now apply set_iter_nonempty in Hnil. }
  rewrite Hmin. cbn [mbind outcome_bind].
  apply py_min_Return in Hmin as [Hin Hlow].
  apply in_map_iff in Hin as (var & [= <- <-] & Hvar).
  apply set_iter_In in Hvar.
  (* every unused variable is a candidate, and none is below the best one *)
  assert (Hall : forall u, u ∈ F -> u ∉ selected_fwd st ->
            (aic (OLS_fit (selected_fwd st ++ [u]))
               <? aic (OLS_fit (selected_fwd st ++ [var])))%float = false).
  { intros u HuF Hu.
    apply (Hlow (aic (OLS_fit (selected_fwd st ++ [u])), u)).
    unfold aic_candidates. apply in_map_iff. exists u. split; [reflexivity|].
    apply set_iter_In. rewrite Hrem. set_solver. }
  destruct (aic (OLS_fit (selected_fwd st ++ [var])) <? current_aic st - 1e-8)%float
    eqn:Himp.
  - left. rewrite (py_set_remove_In _ _ Hvar). cbn [mbind outcome_bind mret outcome_ret].
    eexists. split; [reflexivity|]. cbn [selected_fwd remaining current_aic].
    split; [|split; [|split]].
    + rewrite Hrem, list_to_set_app_L. set_solver.
    + destruct (selected_fwd st); reflexivity.
    + intros p v q Hsplit.
      induction q as [|z q' _] using rev_ind.
      * apply app_inj_tail in Hsplit as [<- <-].
        rewrite Hrem in Hvar.
        split; [set_solver|]. split; [set_solver|].
        split; [now rewrite <- Hcur | exact Hall].
      * rewrite app_comm_cons, app_assoc in Hsplit.
        apply app_inj_tail in Hsplit as [Hsel _].
        exact (Hgreedy p v q' Hsel).
    + apply subset_size. set_solver.
  - right. split; [reflexivity|].
    intros u HuF Hu.
    destruct (aic (OLS_fit (selected_fwd st ++ [u])) <? current_aic st - 1e-8)%float
      eqn:Hu'; [|reflexivity].
    destruct (ltb_negtrans _ (aic (OLS_fit (selected_fwd st ++ [var]))) _
                (aic_not_nan _) Hu') as [H|H].
    + rewrite (Hall u HuF Hu) in H. discriminate.
    + congruence.
Qed.

Lemma forward_loop_result (fuel : nat) (st : state) :
  remaining st = list_to_set F ∖ list_to_set (selected_fwd st) ->
  current_aic st = aic_of_selection OLS_fit (selected_fwd st) ->
  greedy OLS_fit F (selected_fwd st) ->
  size (remaining st) < fuel ->
  exists st', loop OLS_fit set_iter fuel st = Some (Return st') /\
              current_aic st' = aic_of_selection OLS_fit (selected_fwd st') /\
              greedy OLS_fit F (selected_fwd st') /\
              no_improvement OLS_fit F st'.
Proof.
  revert st. induction fuel as [|fuel IH]; intros st Hrem Hcur Hgreedy Hfuel; [lia|].
  simpl. destruct (decide (remaining st = ∅)) as [Hempty|Hne].
  - exists st. split; [reflexivity|]. split; [assumption|]. split; [assumption|].
    intros u HuF Hu. exfalso.
    assert (Hin : u ∈ remaining st) by (rewrite Hrem; set_solver).
    rewrite Hempty in Hin. set_solver.
  - destruct (forward_round_cases st Hrem Hcur Hgreedy Hne)
      as [(st' & -> & Hrem' & Hcur' & Hgreedy' & Hsize)|[-> Hstop]].
    + apply IH; auto. lia.
    + exists st. split; [reflexivity|]. split; [assumption|]. split; assumption.
Qed.

(** C3: forward selection returns (the fuel of one round per factor never
    runs out, and no round raises); it starts from the empty selection with
    [np.inf] as the AIC to beat; every variable it selected was, in its
    round, an unused variable of lowest AIC whose model beat the AIC held by
    more than 1e-8; and in the state it stops in no unused variable gives a
    model whose AIC is below the AIC held minus 1e-8, the AIC held being
    that of the selected model. *)
Theorem forward_selection_greedy :
  init F = {| selected_fwd := []; remaining := list_to_set F;
              current_aic := infinity |} /\
  exists st, forward OLS_fit set_iter F = Some (Return st) /\
             current_aic st = aic_of_selection OLS_fit (selected_fwd st) /\
             greedy OLS_fit F (selected_fwd st) /\
             no_improvement OLS_fit F st.
Proof.
  split; [reflexivity|].
  unfold forward. apply forward_loop_result.
  - simpl. set_solver.
  - reflexivity.
  - intros p v q Hsplit. simpl in Hsplit. now destruct p.
  - simpl. pose proof (size_list_to_set_le F). lia.
Qed.

End ForwardProperties.

(** The run on two factors: Rm-Rf is added first, then SMB, and the loop
    ends with the set of unused variables empty. *)
Lemma forward_selection_two_factors :
  Forward.init Runs.two_factors
    = {| Forward.selected_fwd := [];
         Forward.remaining := list_to_set Runs.two_factors;
         Forward.current_aic := infinity |} /\
  exists st,
    Forward.forward Runs.fit_two_factors elements Runs.two_factors
      = Some (Return st) /\
    Forward.current_aic st
      = Forward.aic_of_selection Runs.fit_two_factors (Forward.selected_fwd st) /\
    Forward.greedy Runs.fit_two_factors Runs.two_factors (Forward.selected_fwd st) /\
    Forward.no_improvement Runs.fit_two_factors Runs.two_factors st.
Proof.
  apply (forward_selection_greedy Runs.fit_two_factors elements Runs.two_factors).
  - intros X. reflexivity.
  - intros cols. unfold Runs.fit_two_factors.
    destruct (Runs.has "Rm-Rf" cols), (Runs.has "SMB" cols); reflexivity.
Defined.

(** ** Backward elimination *)

Section BackwardProperties.
Import Backward.

Variable OLS_fit : list string -> fitted.

(** With nothing left to drop, [min] is called on an empty list. *)
Lemma backward_round_empty : round OLS_fit [] = Raise ValueError.
Proof. reflexivity. Qed.

Lemma backward_round_cases (selected_bwd : list string) :
  selected_bwd <> [] ->
  (exists selected_bwd', round OLS_fit selected_bwd = Return (Continue selected_bwd') /\
                         length selected_bwd = S (length selected_bwd')) \/
  (round OLS_fit selected_bwd = Return (Break selected_bwd) /\
   exists best_aic drop_var,
     py_min fst (aic_drop OLS_fit selected_bwd) = Return (best_aic, drop_var) /\
     (best_aic <? aic (OLS_fit selected_bwd) - 1e-8)%float = false).
Proof.
  intros Hne. unfold round.
  destruct (py_min_nonempty fst (aic_drop OLS_fit selected_bwd))
    as [[best_aic drop_var] Hmin].
  { unfold aic_drop. intros Hnil. now apply map_eq_nil in Hnil. }
  rewrite Hmin. cbn [mbind outcome_bind].
  destruct (best_aic <? aic (OLS_fit selected_bwd) - 1e-8)%float eqn:Himp.
  - left. apply py_min_Return in Hmin as [Hin _].
    apply in_map_iff in Hin as (var & [= _ <-] & Hvar).
    apply list_elem_of_In in Hvar.
    destruct (py_list_remove_In _ _ Hvar) as (l' & -> & Hlen).
    exists l'. split; [reflexivity | exact Hlen].
  - right. split; [reflexivity|]. eauto.
Qed.

(** The loop ends within one round per factor plus one: by [break], or by
    the [ValueError] of [min] once the selection is empty. *)
Lemma backward_loop_halts (fuel : nat) (selected_bwd : list string) :
  length selected_bwd < fuel ->
  (exists sel, loop OLS_fit fuel selected_bwd = Some (Return sel) /\ sel <> []) \/
  loop OLS_fit fuel selected_bwd = Some (Raise ValueError).
Proof.
  revert selected_bwd. induction fuel as [|fuel IH]; intros sel Hfuel; [lia|].
  simpl. destruct sel as [|x sel].
  - right. reflexivity.
  - destruct (backward_round_cases (x :: sel) ltac:(discriminate))
      as [(sel' & -> & Hlen)|[-> _]].
    + apply IH. simpl in *. lia.
    + left. exists (x :: sel). split; [reflexivity | discriminate].
Qed.

Lemma backward_halts (F : list string) :
  (exists sel, backward OLS_fit F = Some (Return sel) /\ sel <> []) \/
  backward OLS_fit F = Some (Raise ValueError).
Proof. apply backward_loop_halts. lia. Qed.

(** When the loop ends by [break], no single removal beats the AIC of the
    selection by more than 1e-8 (every fitted AIC being a number). *)
Lemma backward_loop_stop (fuel : nat) (selected_bwd sel : list string) :
  (forall cols, is_nan (aic (OLS_fit cols)) = false) ->
  loop OLS_fit fuel selected_bwd = Some (Return sel) ->
  forall var, var ∈ sel ->
    (aic (OLS_fit (filter (fun v => v ≠ var) sel)) <? aic (OLS_fit sel) - 1e-8)%float
    = false.
Proof.
  intros Hnan. revert selected_bwd.
  induction fuel as [|fuel IH]; intros l; [discriminate|].
  simpl. destruct l as [|x l]; [discriminate|].
  destruct (backward_round_cases (x :: l) ltac:(discriminate))
    as [(l' & -> & _)|[-> (best_aic & drop_var & Hmin & Hstop)]].
  - apply IH.
  - intros [= <-] var Hvar.
    apply py_min_Return in Hmin as [Hin Hlow].
    apply in_map_iff in Hin as (dv & [= <- <-] & _).
    assert (Hv : (aic (OLS_fit (filter (fun v => v ≠ var) (x :: l)))
                    <? aic (OLS_fit (filter (fun v => v ≠ dv) (x :: l))))%float
                 = false).
    { apply (Hlow (aic (OLS_fit (filter (fun v => v ≠ var) (x :: l))), var)).
      unfold aic_drop. apply in_map_iff. exists var. split; [reflexivity|].
      now apply list_elem_of_In. }
    destruct (aic (OLS_fit (filter (fun v => v ≠ var) (x :: l)))
                <? aic (OLS_fit (x :: l)) - 1e-8)%float eqn:E; [|reflexivity].
    destruct (ltb_negtrans _ _ _ (Hnan (filter (fun v => v ≠ dv) (x :: l))) E)
      as [H|H]; congruence.
Qed.

End BackwardProperties.

(** C9 fails on the code (a defect of the code): with the single factor of
    the noise run the first round drops SMB, because the constant alone has
    the lower AIC, and the second round calls [min] on an empty list; the
    loop does not stop, it raises [ValueError].  The stepwise loop, whose
    removal phase is guarded by [if rem_aic:], ends on the same run with
    the empty selection. *)
Theorem backward_raises_on_noise_factor :
  Backward.backward Runs.fit_noise_factor Runs.noise_factor
    = Some (Raise ValueError) /\
  (aic (Runs.fit_noise_factor [])
     <? aic (Runs.fit_noise_factor ["SMB"]) - 1e-8)%float = true /\
  match Stepwise.loop Runs.fit_noise_factor elements 2
          (Stepwise.init Runs.noise_factor) with
  | Some (Return st) => Stepwise.selected_sw st = []
  | _ => False
  end.
Proof. vm_compute. repeat split; reflexivity. Qed.

(** ** Stepwise selection *)

Section SubtractingEps.

Lemma is_nan_Prim2SF (b : float) : is_nan b = true -> Prim2SF b = S754_nan.
Proof.
  unfold is_nan. rewrite FloatAxioms.eqb_spec. unfold SFeqb.
  destruct (Prim2SF b) as [s|s| |s m e]; simpl; try reflexivity;
  destruct s; try discriminate;
  rewrite Z.compare_refl; fold (Pos.compare m m);
  rewrite Pos.compare_refl; discriminate.
Qed.

(** Nothing lies below [NaN - c]. *)
Lemma ltb_sub_nan (a b c : float) :
  is_nan b = true -> (a <? b - c)%float = false.
Proof.
  intros Hb. rewrite ltb_spec, sub_spec, (is_nan_Prim2SF _ Hb).
  unfold SFltb. now destruct (Prim2SF a).
Qed.

(** Beating [b - 1e-8] is beating [b], as soon as the subtraction does not
    carry [b] upwards. *)
Lemma ltb_sub_eps (a b : float) :
  (b <? b - 1e-8)%float = false ->
  (a <? b - 1e-8)%float = true -> (a <? b)%float = true.
Proof.
  intros Hb Ha. destruct (is_nan b) eqn:Hn.
  - rewrite (ltb_sub_nan a b _ Hn) in Ha. discriminate.
  - destruct (ltb_negtrans _ _ _ Hn Ha) as [H|H]; congruence.
Qed.

Lemma filter_length_lt {A} (P P' : A -> bool) (x0 : A) (U : list A) :
  (forall x, P' x = true -> P x = true) ->
  In x0 U -> P x0 = true -> P' x0 = false ->
  length (List.filter P' U) < length (List.filter P U).
Proof.
  intros Hsub. 
  assert (Hle : forall V, length (List.filter P' V) <= length (List.filter P V)).
  { induction V as [|y V IHV]; simpl; [lia|].
    destruct (P' y) eqn:E'; [rewrite (Hsub _ E'); simpl; lia|].
    destruct (P y); simpl; lia. }
  induction U as [|y U IH]; intros Hin HP HP'; [destruct Hin|].
  simpl. destruct Hin as [->|Hin].
  - rewrite HP, HP'. simpl. specialize (Hle U). lia.
  - specialize (IH Hin HP HP').
    destruct (P' y) eqn:E'; [rewrite (Hsub _ E'); simpl; lia|].
    destruct (P y); simpl; lia.
Qed.

End SubtractingEps.

Section SelectionSpace.
Import Stepwise.

Lemma words_In (F : list string) (j : nat) (l : list string) :
  length l = j -> Forall (fun v => In v F) l -> In l (words F j).
Proof.
  revert l. induction j as [|j IH]; intros l Hl Hall.
  - destruct l; [now left | discriminate].
  - destruct l as [|x l]; [discriminate|].
    apply Forall_cons in Hall as [Hx Hall]. simpl.
    apply in_concat. exists (map (cons x) (words F j)). split.
    + apply in_map_iff. eauto.
    + apply in_map, IH; [simpl in Hl; lia | exact Hall].
Qed.

(** A list of distinct factors is one of the [selections]. *)
Lemma selections_In (F l : list string) :
  NoDup l -> Forall (fun v => In v F) l -> In l (selections F).
Proof.
  intros Hnd Hall. unfold selections. apply in_concat.
  exists (words F (length l)). split.
  - apply in_map, in_seq. split; [lia|].
    assert (length l <= length F); [|lia].
    apply NoDup_incl_length; [now apply NoDup_ListNoDup|].
    intros x Hx. rewrite List.Forall_forall in Hall. auto.
  - now apply words_In.
Qed.

End SelectionSpace.

Section StepwiseProperties.
Import Stepwise.

Variable OLS_fit : list string -> fitted.
Variable set_iter : gset string -> list string.
Variable F : list string.

Hypothesis set_iter_perm : forall X, set_iter X ≡ₚ elements X.
(** Subtracting 1e-8 from a fitted AIC does not give a larger float
    (rounding to nearest is monotone). *)
Hypothesis aic_sub_eps :
  forall cols, (aic (OLS_fit cols) <? aic (OLS_fit cols) - 1e-8)%float = false.

Lemma filter_ne_notin (x : string) (l : list string) :
  x ∉ l -> filter (fun v => v ≠ x) l = l.
Proof.
  induction l as [|y l IH]; intros Hx; [reflexivity|].
  apply not_elem_of_cons in Hx as [Hne Hx].
  rewrite filter_cons_True by congruence. now rewrite IH.
Qed.

(** On a list without repetition, [l.remove(x)] is the comprehension
    [[v for v in l if v != x]]. *)
Lemma py_list_remove_filter (x : string) (l : list string) :
  NoDup l -> x ∈ l ->
  py_list_remove x l = Return (filter (fun v => v ≠ x) l).
Proof.
  induction l as [|y l IH]; intros Hnd Hx; [now apply elem_of_nil in Hx|].
  apply NoDup_cons in Hnd as [Hy Hnd]. simpl.
  destruct (decide (y = x)) as [->|Hne].
  - rewrite filter_cons_False by (intros H; now apply H).
    now rewrite filter_ne_notin.
  - apply elem_of_cons in Hx as [->|Hx]; [congruence|].
    rewrite (IH Hnd Hx). rewrite filter_cons_True by assumption. reflexivity.
Qed.

Lemma add_phase_cases (st : state) :
  invariant OLS_fit F st ->
  exists st' changed,
    add_phase OLS_fit set_iter st = Return (st', changed) /\
    invariant OLS_fit F st' /\
    (changed = false -> st' = st) /\
    (changed = true ->
       current_aic st' = aic (OLS_fit (selected_sw st')) /\
       (current_aic st' <? current_aic st)%float = true).
Proof.
  intros (Hrem & Hnd & Hall & Hcur). unfold add_phase.
  destruct (add_aic OLS_fit set_iter st) as [|c0 cs] eqn:E.
  { exists st, false. repeat split; auto; discriminate. }
  destruct (py_min_nonempty fst (c0 :: cs) ltac:(discriminate))
    as [[best_aic best_var] Hmin].
  rewrite Hmin. cbn [mbind outcome_bind].
  apply py_min_Return in Hmin as [Hin _]. rewrite <- E in Hin.
  apply in_map_iff in Hin as (var & [= <- <-] & Hvar).
  apply (set_iter_In set_iter set_iter_perm) in Hvar.
  destruct (aic (OLS_fit (selected_sw st ++ [var])) <? current_aic st - 1e-8)%float
    eqn:Himp.
  2:{ exists st, false. repeat split; auto; discriminate. }
  rewrite (py_set_remove_In _ _ Hvar). cbn [mbind outcome_bind mret outcome_ret].
  eexists _, true. split; [reflexivity|]. cbn [selected_sw remaining current_aic].
  assert (HvF : var ∈ F /\ var ∉ selected_sw st) by (rewrite Hrem in Hvar; set_solver).
  destruct HvF as [HvF Hvsel].
  split; [|split; [discriminate|]].
  - unfold invariant. cbn [selected_sw remaining current_aic].
    split; [|split; [|split]].
    + rewrite Hrem, list_to_set_app_L. set_solver.
    + apply NoDup_app. split; [assumption|]. split; [|apply NoDup_singleton].
      intros x Hx Hx'. apply list_elem_of_singleton in Hx'. now subst.
    + apply Forall_app. split; [assumption|].
      apply Forall_singleton. now apply list_elem_of_In.
    + now right.
  - intros _. split; [reflexivity|].
    destruct Hcur as [[_ Hinf]|Hcur].
    + rewrite Hinf in Himp |- *.
      change (infinity - 1e-8)%float with infinity in Himp. exact Himp.
    + rewrite Hcur in Himp |- *. apply ltb_sub_eps; [apply aic_sub_eps | exact Himp].
Qed.

Lemma remove_phase_cases (st : state) :
  invariant OLS_fit F st ->
  exists st' changed,
    remove_phase OLS_fit st = Return (st', changed) /\
    invariant OLS_fit F st' /\
    (changed = false -> st' = st) /\
    (changed = true ->
       current_aic st' = aic (OLS_fit (selected_sw st')) /\
       (current_aic st' <? current_aic st)%float = true).
Proof.
  intros (Hrem & Hnd & Hall & Hcur). unfold remove_phase.
  destruct (rem_aic OLS_fit st) as [|c0 cs] eqn:E.
  { exists st, false. repeat split; auto; discriminate. }
  destruct (py_min_nonempty (fun x => x.1.1) (c0 :: cs) ltac:(discriminate))
    as [[[best_aic_rem var_rem] cand] Hmin].
  rewrite Hmin. cbn [mbind outcome_bind].
  apply py_min_Return in Hmin as [Hin _]. rewrite <- E in Hin.
  apply in_map_iff in Hin as (var & [= <- <- <-] & Hvar).
  apply list_elem_of_In in Hvar.
  destruct (aic (OLS_fit (filter (fun v => v ≠ var) (selected_sw st)))
              <? aic (OLS_fit (selected_sw st)) - 1e-8)%float eqn:Himp.
  2:{ exists st, false. repeat split; auto; discriminate. }
  rewrite (py_list_remove_filter _ _ Hnd Hvar).
  cbn [mbind outcome_bind mret outcome_ret].
  eexists _, true. split; [reflexivity|]. cbn [selected_sw remaining current_aic].
  assert (HvF : var ∈ F).
  { rewrite List.Forall_forall in Hall. apply list_elem_of_In, Hall.
    now apply list_elem_of_In. }
  split; [|split; [discriminate|]].
  - unfold invariant. cbn [selected_sw remaining current_aic].
    split; [|split; [|split]].
    + rewrite Hrem. apply set_eq. intros x.
      rewrite elem_of_union, elem_of_singleton, !elem_of_difference,
        !elem_of_list_to_set, list_elem_of_filter.
      destruct (decide (x = var)) as [->|Hne]; [tauto|].
      split.
      * intros [?|[? ?]]; [congruence|]. split; [assumption|]. tauto.
      * intros [? Hx]. right. split; [assumption|]. tauto.
    + now apply NoDup_filter.
    + apply List.Forall_forall. intros x Hx.
      apply list_elem_of_In, list_elem_of_filter in Hx as [_ Hx].
      rewrite List.Forall_forall in Hall. apply Hall. now apply list_elem_of_In.
    + now right.
  - intros _. split; [reflexivity|].
    destruct Hcur as [[Hnil _]|Hcur].
    + rewrite Hnil in Hvar. now apply elem_of_nil in Hvar.
    + rewrite Hcur. apply ltb_sub_eps; [apply aic_sub_eps | exact Himp].
Qed.

Lemma stepwise_round_cases (st : state) :
  invariant OLS_fit F st ->
  exists st' changed,
    round OLS_fit set_iter st = Return (st', changed) /\
    invariant OLS_fit F st' /\
    (changed = false -> st' = st) /\
    (changed = true ->
       current_aic st' = aic (OLS_fit (selected_sw st')) /\
       (current_aic st' <? current_aic st)%float = true).
Proof.
  intros Hinv. unfold round.
  destruct (add_phase_cases st Hinv) as (st1 & c1 & -> & Hinv1 & Hsame1 & Hch1).
  cbn [mbind outcome_bind].
  destruct (remove_phase_cases st1 Hinv1) as (st2 & c2 & -> & Hinv2 & Hsame2 & Hch2).
  cbn [mbind outcome_bind mret outcome_ret].
  exists st2, (c1 || c2). split; [reflexivity|]. split; [assumption|].
  destruct c1, c2; simpl.
  - split; [discriminate|]. intros _.
    destruct (Hch1 eq_refl) as [_ H1], (Hch2 eq_refl) as [E2 H2].
    split; [assumption | exact (ltb_trans _ _ _ H2 H1)].
  - split; [discriminate|]. intros _.
    rewrite (Hsame2 eq_refl). now apply Hch1.
  - split; [discriminate|]. intros _.
    rewrite <- (Hsame1 eq_refl). now apply Hch2.
  - split; [|discriminate]. intros _.
    now rewrite (Hsame2 eq_refl), (Hsame1 eq_refl).
Qed.

(** The rounds that change something are bounded: each one lowers the AIC
    held to the AIC of a selection that was below it and no longer is. *)
Lemma stepwise_loop_result (fuel : nat) (st : state) :
  invariant OLS_fit F st ->
  length (List.filter (fun l => (aic (OLS_fit l) <? current_aic st)%float)
                      (selections F)) < fuel ->
  exists st', loop OLS_fit set_iter fuel st = Some (Return st') /\
              invariant OLS_fit F st' /\
              round OLS_fit set_iter st' = Return (st', false).
Proof.
  revert st. induction fuel as [|fuel IH]; intros st Hinv Hfuel; [lia|].
  simpl.
  destruct (stepwise_round_cases st Hinv) as (st' & c & Hround & Hinv' & Hsame & Hch).
  rewrite Hround. destruct c.
  - destruct (Hch eq_refl) as [Hcur' Hlt].
    apply IH; [assumption|].
    assert (Hdec : length (List.filter
                     (fun l => (aic (OLS_fit l) <? current_aic st')%float)
                     (selections F))
                   < length (List.filter
                     (fun l => (aic (OLS_fit l) <? current_aic st)%float)
                     (selections F))); [|lia].
    apply (filter_length_lt _ _ (selected_sw st')).
    + intros l Hl. exact (ltb_trans _ _ _ Hl Hlt).
    + destruct Hinv' as (_ & Hnd' & Hall' & _). now apply selections_In.
    + now rewrite <- Hcur'.
    + rewrite <- Hcur'. apply ltb_irrefl.
  - rewrite (Hsame eq_refl) in *. eauto.
Qed.

(** The stepwise loop returns, for every fit table, factor list and
    iteration order: within one round per selection plus one it reaches a
    state that a full round leaves unchanged, and no round raises. *)
Lemma stepwise_halts :
  exists st, stepwise OLS_fit set_iter F = Some (Return st) /\
             invariant OLS_fit F st /\
             round OLS_fit set_iter st = Return (st, false).
Proof.
  unfold stepwise. apply stepwise_loop_result.
  - unfold invariant, init; cbn [selected_sw remaining current_aic].
    split; [set_solver|]. split; [apply NoDup_nil_2|].
    split; [apply Forall_nil_2 | now left].
  - pose proof (List.filter_length_le
      (fun l => (aic (OLS_fit l) <? current_aic (init F))%float) (selections F)).
    lia.
Qed.

End StepwiseProperties.

(** The two-factor run meets the hypotheses of [stepwise_halts]. *)
Lemma stepwise_halts_two_factors :
  exists st,
    Stepwise.stepwise Runs.fit_two_factors elements Runs.two_factors
      = Some (Return st) /\
    Stepwise.invariant Runs.fit_two_factors Runs.two_factors st /\
    Stepwise.round Runs.fit_two_factors elements st = Return (st, false).
Proof.
  apply stepwise_halts.
  - intros X. reflexivity.
  - intros cols. unfold Runs.fit_two_factors.
    destruct (Runs.has "Rm-Rf" cols), (Runs.has "SMB" cols); reflexivity.
Qed.

(** ** More fuel changes no result *)

Section Fuel.

Variable OLS_fit : list string -> fitted.
Variable set_iter : gset string -> list string.

Lemma forward_loop_S fuel st :
  Forward.loop OLS_fit set_iter (S fuel) st
  = if decide (Forward.remaining st = ∅) then Some (Return st)
    else match Forward.round OLS_fit set_iter st with
         | Return (Continue st') => Forward.loop OLS_fit set_iter fuel st'
         | Return (Break st') => Some (Return st')
         | Raise e => Some (Raise e)
         end.
Proof. reflexivity. Qed.

Lemma forward_loop_more_fuel fuel st r :
  Forward.loop OLS_fit set_iter fuel st = Some r ->
  Forward.loop OLS_fit set_iter (S fuel) st = Some r.
Proof.
  revert st. induction fuel as [|fuel IH]; intros st H; [discriminate|].
  rewrite forward_loop_S in H |- *.
  destruct (decide (Forward.remaining st = ∅)); [trivial|].
  destruct (Forward.round OLS_fit set_iter st) as [[st'|st']|e]; auto.
Qed.

Lemma backward_loop_S fuel sel :
  Backward.loop OLS_fit (S fuel) sel
  = match Backward.round OLS_fit sel with
    | Return (Continue sel') => Backward.loop OLS_fit fuel sel'
    | Return (Break sel') => Some (Return sel')
    | Raise e => Some (Raise e)
    end.
Proof. reflexivity. Qed.

Lemma backward_loop_more_fuel fuel sel r :
  Backward.loop OLS_fit fuel sel = Some r ->
  Backward.loop OLS_fit (S fuel) sel = Some r.
Proof.
  revert sel. induction fuel as [|fuel IH]; intros sel H; [discriminate|].
  rewrite backward_loop_S in H |- *.
  destruct (Backward.round OLS_fit sel) as [[sel'|sel']|e]; auto.
Qed.

Lemma stepwise_loop_S fuel st :
  Stepwise.loop OLS_fit set_iter (S fuel) st
  = match Stepwise.round OLS_fit set_iter st with
    | Return (st', true) => Stepwise.loop OLS_fit set_iter fuel st'
    | Return (st', false) => Some (Return st')
    | Raise e => Some (Raise e)
    end.
Proof. reflexivity. Qed.

Lemma stepwise_loop_more_fuel fuel st r :
  Stepwise.loop OLS_fit set_iter fuel st = Some r ->
  Stepwise.loop OLS_fit set_iter (S fuel) st = Some r.
Proof.
  revert st. induction fuel as [|fuel IH]; intros st H; [discriminate|].
  rewrite stepwise_loop_S in H |- *.
  destruct (Stepwise.round OLS_fit set_iter st) as [[st' []]|e]; auto.
Qed.

End Fuel.

(** ** The ranking of [sort_values] *)

Section Ranking.

Lemma SFleb_trans a b c :
  SFleb a b = true -> SFleb b c = true -> SFleb a c = true.
Proof.
  unfold SFleb.
  destruct a as [sa|sa| |sa ma ea], b as [sb|sb| |sb mb eb],
           c as [sc|sc| |sc mc ec]; simpl;
  repeat match goal with s : bool |- _ => destruct s end;
  simpl; try congruence;
  destruct (Z.compare_spec ea eb), (Z.compare_spec eb ec);
  simpl; try congruence;
  destruct (Z.compare_spec ea ec); simpl; try congruence; try lia; subst;
  rewrite ?Z.compare_refl in *;
  fold (Pos.compare ma mb); fold (Pos.compare mb mc); fold (Pos.compare ma mc);
  destruct (Pos.compare_spec ma mb), (Pos.compare_spec mb mc),
           (Pos.compare_spec ma mc); simpl; try congruence; try lia.
Qed.

Lemma SFleb_total a b :
  SFeqb a a = true -> SFeqb b b = true ->
  SFleb a b = false -> SFleb b a = true.
Proof.
  unfold SFleb, SFeqb.
  destruct a as [sa|sa| |sa ma ea], b as [sb|sb| |sb mb eb]; simpl;
  repeat match goal with s : bool |- _ => destruct s end;
  simpl; try congruence; intros _ _;
  rewrite (Z.compare_antisym ea eb);
  destruct (Z.compare ea eb); simpl; try congruence;
  fold (Pos.compare ma mb); fold (Pos.compare mb ma);
  rewrite (Pos.compare_antisym ma mb);
  destruct (Pos.compare ma mb); simpl; congruence.
Qed.

Lemma SFleb_not_ltb a b : SFleb a b = true -> SFltb b a = false.
Proof.
  unfold SFleb, SFltb.
  destruct a as [sa|sa| |sa ma ea], b as [sb|sb| |sb mb eb]; simpl;
  repeat match goal with s : bool |- _ => destruct s end;
  simpl; try congruence;
  rewrite (Z.compare_antisym ea eb);
  destruct (Z.compare ea eb); simpl; try congruence;
  fold (Pos.compare ma mb); fold (Pos.compare mb ma);
  rewrite (Pos.compare_antisym ma mb);
  destruct (Pos.compare ma mb); simpl; congruence.
Qed.

Lemma SFleb_nan_r a : SFleb a S754_nan = false.
Proof. now destruct a. Qed.

Lemma SFleb_nan_l a : SFleb S754_nan a = false.
Proof. reflexivity. Qed.

Lemma is_nan_false_SFeqb (x : float) :
  is_nan x = false -> SFeqb (Prim2SF x) (Prim2SF x) = true.
Proof.
  unfold is_nan. rewrite FloatAxioms.eqb_spec.
  now destruct (SFeqb (Prim2SF x) (Prim2SF x)).
Qed.

Lemma nan_last_leb_total (x y : float) :
  nan_last_leb x y = false -> nan_last_leb y x = true.
Proof.
  unfold nan_last_leb. destruct (is_nan y) eqn:Hy; [discriminate|].
  destruct (is_nan x) eqn:Hx; [reflexivity|].
  rewrite !leb_spec.
  apply SFleb_total; now apply is_nan_false_SFeqb.
Qed.

Lemma nan_last_leb_trans (x y z : float) :
  nan_last_leb x y = true -> nan_last_leb y z = true -> nan_last_leb x z = true.
Proof.
  unfold nan_last_leb. destruct (is_nan z) eqn:Hz; [reflexivity|].
  destruct (is_nan y) eqn:Hy; [discriminate|].
  destruct (is_nan x) eqn:Hx; [discriminate|].
  rewrite !leb_spec. apply SFleb_trans.
Qed.

(** A row ranked at or before another has no larger key, in Python's
    comparison. *)
Lemma nan_last_leb_not_ltb (x y : float) :
  nan_last_leb x y = true -> (y <? x)%float = false.
Proof.
  unfold nan_last_leb. destruct (is_nan y) eqn:Hy.
  - intros _. destruct (y <? x)%float eqn:E; [|reflexivity].
    apply ltb_not_nan_l in E. congruence.
  - destruct (is_nan x); [discriminate|].
    rewrite leb_spec, ltb_spec. apply SFleb_not_ltb.
Qed.

Lemma lex_leb_total keys r1 r2 :
  lex_leb keys r1 r2 = false -> lex_leb keys r2 r1 = true.
Proof.
  induction keys as [|key keys IH]; simpl; [discriminate|].
  unfold nan_last_ltb.
  destruct (nan_last_leb (key r1) (key r2)) eqn:E12,
           (nan_last_leb (key r2) (key r1)) eqn:E21; simpl; try congruence.
  exact IH.
Qed.

Lemma lex_leb_trans keys r1 r2 r3 :
  lex_leb keys r1 r2 = true -> lex_leb keys r2 r3 = true ->
  lex_leb keys r1 r3 = true.
Proof.
  induction keys as [|key keys IH]; simpl; [reflexivity|].
  unfold nan_last_ltb.
  destruct (nan_last_leb (key r1) (key r2)) eqn:E12,
           (nan_last_leb (key r2) (key r1)) eqn:E21,
           (nan_last_leb (key r2) (key r3)) eqn:E23,
           (nan_last_leb (key r3) (key r2)) eqn:E32; simpl; try congruence;
  intros H12 H23;
  try (apply nan_last_leb_total in E12; congruence);
  try (apply nan_last_leb_total in E23; congruence);
  rewrite (nan_last_leb_trans _ _ _ E12 E23);
  destruct (nan_last_leb (key r3) (key r1)) eqn:E31; simpl; auto;
  try (rewrite (nan_last_leb_trans _ _ _ E31 E12) in E32; discriminate);
  try (rewrite (nan_last_leb_trans _ _ _ E23 E31) in E21; discriminate).
Qed.

End Ranking.

Section SortedHead.
Context {A : Type} (le : A -> A -> bool).
Hypothesis le_total : forall x y, le x y = false -> le y x = true.
Hypothesis le_trans : forall x y z, le x y = true -> le y z = true -> le x z = true.

(** The first row after a sort is ranked at or before every row. *)
Lemma stable_sort_head (l : list A) (h : A) (t : list A) :
  stable_sort le l = h :: t ->
  In h l /\ forall y, In y l -> le h y = true.
Proof.
  revert h t. induction l as [|x l IH]; intros h t; [discriminate|].
  simpl. destruct (stable_sort le l) as [|h' t'] eqn:Es.
  - assert (l = []) as ->.
    { apply Permutation_nil. rewrite <- Es. apply stable_sort_perm. }
    simpl. intros [= <- <-]. split; [now left|].
    intros y [<-|[]]. destruct (le x x) eqn:E; [reflexivity|].
    pose proof (le_total _ _ E). congruence.
  - destruct (IH h' t' eq_refl) as [Hin Hmin]. simpl.
    destruct (le x h') eqn:E; intros [= <- <-].
    + split; [now left|]. intros y [<-|Hy].
      * destruct (le x x) eqn:E'; [reflexivity|].
        pose proof (le_total _ _ E'). congruence.
      * apply le_trans with h'; auto.
    + split; [now right|]. intros y [<-|Hy]; [now apply le_total | auto].
Qed.

End SortedHead.

Section BestByAic.
Import Exhaustive.
Variable OLS_fit : list string -> fitted.

Lemma combine_seq_In {B} (l : list B) (a : nat) (r : B) :
  In r l -> exists i, In (i, r) (combine (seq a (length l)) l).
Proof.
  revert a. induction l as [|x l IH]; intros a; [intros []|].
  simpl. intros [<-|Hr]; [eauto|].
  destruct (IH (S a) Hr) as [i Hi]. eauto.
Qed.

(** What C2 says of the best-by-AIC subset holds for every fit table: the
    subset read on line 169 is one of the enumerated subsets, and no
    enumerated subset has a lower AIC. *)
Lemma best_aic_vars_minimal (F s : list string) :
  best_aic_vars OLS_fit F = Return s ->
  In s (map vars (results_subset OLS_fit F)) /\
  forall s', In s' (map vars (results_subset OLS_fit F)) ->
             (aic (OLS_fit s') <? aic (OLS_fit s))%float = false.
Proof.
  unfold best_aic_vars, res_df.
  pose proof (results_subset_scores OLS_fit F) as Hscores.
  rewrite List.Forall_forall in Hscores.
  destruct (results_subset OLS_fit F) as [|r0 rs] eqn:Ers; [discriminate|].
  unfold sort_values, pd_DataFrame. cbn [columns rows].
  change (forallb _ ["AIC"; "BIC"]) with true.
  change (sort_keys ["AIC"; "BIC"]) with (Some [AIC; BIC]).
  cbn [mbind outcome_bind mret outcome_ret].
  unfold loc_vars, reset_index. cbn [columns rows].
  change (bool_decide ("vars" ∈ ["vars"; "k"; "AIC"; "BIC"; "R2"])) with true.
  cbv iota.
  set (le := fun p q : nat * subset_row => lex_leb [AIC; BIC] p.2 q.2).
  destruct (stable_sort le (combine (seq 0 (length (r0 :: rs))) (r0 :: rs)))
    as [|h t] eqn:Es.
  { apply (f_equal (@length _)) in Es.
    pose proof (Permutation_length (stable_sort_perm le
                 (combine (seq 0 (length (r0 :: rs))) (r0 :: rs)))) as Hl.
    rewrite Es in Hl. simpl in Hl. discriminate. }
  simpl. intros [= <-].
  destruct (stable_sort_head le
              (fun x y => lex_leb_total _ x.2 y.2)
              (fun x y z => lex_leb_trans _ x.2 y.2 z.2) _ _ _ Es) as [Hin Hmin].
  split.
  - apply (in_map vars (r0 :: rs)). destruct h as [i r].
    exact (in_combine_r _ _ _ _ Hin).
  - intros s' Hs'. apply (in_map_iff vars (r0 :: rs)) in Hs' as (r' & <- & Hr').
    destruct (combine_seq_In (r0 :: rs) 0 r' Hr') as [i Hi].
    specialize (Hmin _ Hi). unfold le in Hmin. simpl in Hmin.
    assert (Hleb : nan_last_leb (AIC h.2) (AIC r') = true).
    { unfold nan_last_ltb in Hmin.
      destruct (nan_last_leb (AIC h.2) (AIC r')) eqn:E; [reflexivity|].
      apply nan_last_leb_total in E. rewrite E in Hmin. discriminate. }
    apply nan_last_leb_not_ltb in Hleb.
    destruct (Hscores r' Hr') as [<- _].
    destruct h as [j r]. apply in_combine_r in Hin. cbn [snd] in *.
    destruct (Hscores r Hin) as [<- _]. exact Hleb.
Qed.

End BestByAic.

(** ** The condition number: a bare quotient *)

Section FloatQuotient.

Lemma leb_total (a b : float) :
  is_nan a = false -> is_nan b = false ->
  (a <=? b)%float = false -> (b <=? a)%float = true.
Proof.
  intros Ha Hb. rewrite !leb_spec.
  apply SFleb_total; now apply is_nan_false_SFeqb.
Qed.

Lemma leb_refl (a : float) : is_nan a = false -> (a <=? a)%float = true.
Proof.
  intros Ha. destruct (a <=? a)%float eqn:E; [reflexivity|].
  pose proof (leb_total a a Ha Ha E). congruence.
Qed.

Lemma leb_trans (a b c : float) :
  (a <=? b)%float = true -> (b <=? c)%float = true -> (a <=? c)%float = true.
Proof. rewrite !leb_spec. apply SFleb_trans. Qed.

Lemma eqb_zero_Prim2SF (x : float) :
  (x =? 0)%float = true -> exists s, Prim2SF x = S754_zero s.
Proof.
  rewrite FloatAxioms.eqb_spec.
  change (Prim2SF 0) with (S754_zero false).
  unfold SFeqb, SFcompare.
  destruct (Prim2SF x) as [s|s| |s m e]; simpl;
    [eauto | destruct s; discriminate | discriminate | destruct s; discriminate].
Qed.

(** A positive number divided by a zero of either sign is an infinity. *)
Lemma div_positive_by_zero (hi lo : float) :
  (0 <? hi)%float = true -> (lo =? 0)%float = true ->
  abs (hi / lo) = infinity.
Proof.
  intros Hhi Hlo. apply eqb_zero_Prim2SF in Hlo as [s Hlo].
  apply Prim2SF_inj. rewrite abs_spec, div_spec, Hlo.
  change (Prim2SF infinity) with (S754_infinity false).
  rewrite ltb_spec in Hhi. change (Prim2SF 0) with (S754_zero false) in Hhi.
  unfold SF64div, SFdiv.
  destruct (Prim2SF hi) as [sh|sh| |sh mh eh]; try discriminate Hhi;
    reflexivity.
Qed.

(** Zero divided by zero is a NaN. *)
Lemma div_zero_by_zero (hi lo : float) :
  (hi =? 0)%float = true -> (lo =? 0)%float = true ->
  is_nan (hi / lo) = true.
Proof.
  intros Hhi Hlo.
  apply eqb_zero_Prim2SF in Hhi as [sh Hhi].
  apply eqb_zero_Prim2SF in Hlo as [sl Hlo].
  unfold is_nan. rewrite FloatAxioms.eqb_spec, div_spec, Hhi, Hlo.
  reflexivity.
Qed.

End FloatQuotient.

Section ArrayExtremes.
Import CondNumber.

Lemma np_maximum_cases (x y : float) :
  is_nan x = false -> is_nan y = false ->
  (np_maximum x y = x \/ np_maximum x y = y) /\
  (x <=? np_maximum x y)%float = true /\ (y <=? np_maximum x y)%float = true.
Proof.
  intros Hx Hy. unfold np_maximum. rewrite Hx, orb_false_r.
  destruct (y <=? x)%float eqn:E.
  - split; [now left|]. split; [now apply leb_refl | assumption].
  - split; [now right|]. split; [now apply leb_total | now apply leb_refl].
Qed.

Lemma np_minimum_cases (x y : float) :
  is_nan x = false -> is_nan y = false ->
  (np_minimum x y = x \/ np_minimum x y = y) /\
  (np_minimum x y <=? x)%float = true /\ (np_minimum x y <=? y)%float = true.
Proof.
  intros Hx Hy. unfold np_minimum. rewrite Hx, orb_false_r.
  destruct (x <=? y)%float eqn:E.
  - split; [now left|]. split; [now apply leb_refl | assumption].
  - split; [now right|]. split; [now apply leb_total | now apply leb_refl].
Qed.

(** On an array without NaN, [max] returns one of its entries, at or above
    every entry. *)
Lemma fold_np_maximum (l : list float) (x : float) :
  is_nan x = false -> Forall (fun s => is_nan s = false) l ->
  In (fold_left np_maximum l x) (x :: l) /\
  Forall (fun s => (s <=? fold_left np_maximum l x)%float = true) (x :: l).
Proof.
  revert x. induction l as [|y l IH]; intros x Hx Hl; simpl.
  - split; [now left|]. constructor; [now apply leb_refl | constructor].
  - apply Forall_cons in Hl as [Hy Hl].
    destruct (np_maximum_cases x y Hx Hy) as (Hc & Hxm & Hym).
    assert (Hm : is_nan (np_maximum x y) = false)
      by (destruct Hc as [-> | ->]; assumption).
    destruct (IH (np_maximum x y) Hm Hl) as [Hin Hall].
    apply Forall_cons in Hall as [Hmm Hall].
    split.
    + simpl in Hin. destruct Hin as [Hin|Hin]; [|auto].
      rewrite <- Hin. destruct Hc as [-> | ->]; auto.
    + constructor; [exact (leb_trans _ _ _ Hxm Hmm)|].
      constructor; [exact (leb_trans _ _ _ Hym Hmm) | exact Hall].
Qed.

(** On an array without NaN, [min] returns one of its entries, at or below
    every entry. *)
Lemma fold_np_minimum (l : list float) (x : float) :
  is_nan x = false -> Forall (fun s => is_nan s = false) l ->
  In (fold_left np_minimum l x) (x :: l) /\
  Forall (fun s => (fold_left np_minimum l x <=? s)%float = true) (x :: l).
Proof.
  revert x. induction l as [|y l IH]; intros x Hx Hl; simpl.
  - split; [now left|]. constructor; [now apply leb_refl | constructor].
  - apply Forall_cons in Hl as [Hy Hl].
    destruct (np_minimum_cases x y Hx Hy) as (Hc & Hxm & Hym).
    assert (Hm : is_nan (np_minimum x y) = false)
      by (destruct Hc as [-> | ->]; assumption).
    destruct (IH (np_minimum x y) Hm Hl) as [Hin Hall].
    apply Forall_cons in Hall as [Hmm Hall].
    split.
    + simpl in Hin. destruct Hin as [Hin|Hin]; [|auto].
      rewrite <- Hin. destruct Hc as [-> | ->]; auto.
    + constructor; [exact (leb_trans _ _ _ Hmm Hxm)|].
      constructor; [exact (leb_trans _ _ _ Hmm Hym) | exact Hall].
Qed.

Variable svd : list string -> outcome (list float).

(** C6, as the code has it: the condition number is the largest singular
    value the SVD returned divided by the smallest, one division of two
    floats with no flag and no cap.  The computation raises only what the
    SVD raised, or [ValueError] when the SVD returned no singular value; the
    division never raises.  With at least one singular value the quotient is
    returned: on singular values without NaN its numerator is an entry at or
    above all entries and its denominator an entry at or below all; it is an
    infinity when the smallest singular value is zero and the largest
    positive, and a NaN when both are zero. *)
Theorem cond_number_is_bare_quotient (final_vars : list string) :
  match svd final_vars with
  | Raise e => cond_number svd final_vars = Raise e
  | Return [] => cond_number svd final_vars = Raise ValueError
  | Return svals =>
      exists hi lo,
        ndarray_max svals = Return hi /\ ndarray_min svals = Return lo /\
        cond_number svd final_vars = Return (hi / lo)%float /\
        (Forall (fun s => is_nan s = false) svals ->
           In hi svals /\ In lo svals /\
           Forall (fun s => (s <=? hi)%float = true /\ (lo <=? s)%float = true)
                  svals) /\
        ((0 <? hi)%float = true -> (lo =? 0)%float = true ->
           abs (hi / lo) = infinity) /\
        ((hi =? 0)%float = true -> (lo =? 0)%float = true ->
           is_nan (hi / lo) = true)
  end.
Proof.
  unfold cond_number.
  destruct (svd final_vars) as [[|s0 svals]|e]; [reflexivity| |reflexivity].
  exists (fold_left np_maximum svals s0), (fold_left np_minimum svals s0).
  split; [reflexivity|]. split; [reflexivity|]. split; [reflexivity|].
  split; [|split; [apply div_positive_by_zero | apply div_zero_by_zero]].
  intros Hnan. apply Forall_cons in Hnan as [H0 Hnan].
  destruct (fold_np_maximum svals s0 H0 Hnan) as [Hin_hi Hall_hi].
  destruct (fold_np_minimum svals s0 H0 Hnan) as [Hin_lo Hall_lo].
  split; [exact Hin_hi|]. split; [exact Hin_lo|].
  rewrite List.Forall_forall in Hall_hi, Hall_lo |- *. auto.
Qed.

(** C6 fails as stated: with HML a copy of SMB the smallest singular value
    is zero and the condition number is [inf], above every cap and carried
    on as an ordinary float; with the smallest singular value near zero it
    is 2^54; with two zero singular values it is a NaN.  Nothing is flagged
    or capped. *)
Lemma cond_number_not_capped :
  cond_number Runs.svd_duplicated Runs.duplicated = Return infinity /\
  cond_number Runs.svd_near_duplicated Runs.duplicated
    = Return 18014398509481984%float /\
  max_over_min [0%float; 0%float] = Return nan.
Proof. vm_compute. repeat split; reflexivity. Qed.

End ArrayExtremes.

(** * Further properties of the script *)

(** ** Sorting *)

Section StableSortSorted.
Context {A : Type} (le : A -> A -> bool).
Hypothesis le_total : forall x y, le x y = false -> le y x = true.
Hypothesis le_trans : forall x y z, le x y = true -> le y z = true -> le x z = true.

Lemma insert_sorted_StronglySorted (x : A) (l : list A) :
  StronglySorted (fun a b => le a b = true) l ->
  StronglySorted (fun a b => le a b = true) (insert_sorted le x l).
Proof.
  induction l as [|y l IH]; intros Hs; simpl.
  - constructor; [constructor | constructor].
  - apply StronglySorted_inv in Hs as [Hs Hy].
    destruct (le x y) eqn:E.
    + constructor; [constructor; assumption|].
      constructor; [assumption|].
      rewrite List.Forall_forall in Hy |- *. intros z Hz.
      apply le_trans with y; auto.
    + constructor; [now apply IH|].
      rewrite List.Forall_forall in Hy |- *. intros z Hz.
      apply (Permutation_in _ (insert_sorted_perm le x l)) in Hz.
      destruct Hz as [<-|Hz]; [now apply le_total | auto].
Qed.

Lemma stable_sort_StronglySorted (l : list A) :
  StronglySorted (fun a b => le a b = true) (stable_sort le l).
Proof.
  induction l as [|x l IH]; simpl; [constructor|].
  now apply insert_sorted_StronglySorted.
Qed.

End StableSortSorted.

Lemma StronglySorted_map {A B} (f : A -> B) (R : B -> B -> Prop) (l : list A) :
  StronglySorted (fun a b => R (f a) (f b)) l -> StronglySorted R (map f l).
Proof.
  induction 1 as [|a l Hs IH Hall]; simpl; constructor; [assumption|].
  rewrite List.Forall_forall in Hall |- *. intros b Hb.
  apply in_map_iff in Hb as (x & <- & Hx). auto.
Qed.

Lemma map_snd_combine_seq {B} (l : list B) (a : nat) :
  map snd (combine (seq a (length l)) l) = l.
Proof.
  revert a. induction l as [|x l IH]; intros a; simpl; [reflexivity|].
  now rewrite IH.
Qed.

Lemma map_fst_combine_seq {B} (l : list B) (a : nat) :
  map fst (combine (seq a (length l)) l) = seq a (length l).
Proof.
  revert a. induction l as [|x l IH]; intros a; simpl; [reflexivity|].
  now rewrite IH.
Qed.

(** ** The ranked table, for every fit table *)

Section ExhaustiveTable.
Import Exhaustive.
Variable OLS_fit : list string -> fitted.

Lemma results_subset_nil (F : list string) :
  results_subset OLS_fit F = [] -> F = [].
Proof.
  intros H. apply (f_equal (@length _)) in H.
  rewrite results_subset_length in H. simpl in H.
  destruct F as [|x F]; [reflexivity|]. exfalso.
  change (length (x :: F)) with (S (length F)) in H.
  rewrite Nat.pow_succ_r' in H.
  pose proof (Nat.pow_nonzero 2 (length F) ltac:(lia)). lia.
Qed.

(** The frame of line 167, when there is a row to rank. *)
Lemma res_df_cons (F : list string) r0 rs :
  results_subset OLS_fit F = r0 :: rs ->
  res_df OLS_fit F
  = Return (reset_index
      {| columns := ["vars"; "k"; "AIC"; "BIC"; "R2"];
         rows := stable_sort (fun p q => lex_leb [AIC; BIC] p.2 q.2)
                   (combine (seq 0 (length (r0 :: rs))) (r0 :: rs)) |}).
Proof. intros E. unfold res_df. rewrite E. reflexivity. Qed.

(** X5: the ranked table.  The ranking raises exactly when there is no
    factor, and then [KeyError]; with at least one factor [res_df] carries
    the labels 0 .. 2^k - 2 in order, its rows are the enumerated rows in
    another order, and every row is ranked at or before all rows below it:
    by AIC first, by BIC among equal AICs, a NaN after every number. *)
Theorem res_df_is_ranked (F : list string) :
  match res_df OLS_fit F with
  | Return df =>
      F <> [] /\
      map fst (rows df) = seq 0 (2 ^ length F - 1) /\
      map snd (rows df) ≡ₚ results_subset OLS_fit F /\
      StronglySorted (fun r1 r2 => lex_leb [AIC; BIC] r1 r2 = true)
                     (map snd (rows df))
  | Raise e => F = [] /\ e = KeyError
  end.
Proof.
  destruct (results_subset OLS_fit F) as [|r0 rs] eqn:E.
  - rewrite (results_subset_nil F E). simpl. auto.
  - assert (HF : F <> []) by (intros ->; discriminate E).
    rewrite (res_df_cons F r0 rs E). unfold reset_index. cbn [rows columns].
    split; [exact HF|].
    set (le := fun p q : nat * subset_row => lex_leb [AIC; BIC] p.2 q.2).
    set (sorted := stable_sort le (combine (seq 0 (length (r0 :: rs))) (r0 :: rs))).
    assert (Hperm : sorted ≡ₚ combine (seq 0 (length (r0 :: rs))) (r0 :: rs))
      by apply stable_sort_perm.
    assert (Hlen : length (map snd sorted) = length (rows {| columns := []; rows := sorted |}))
      by now rewrite length_map.
    cbn [rows] in Hlen.
    split; [|split].
    + rewrite <- Hlen, map_fst_combine_seq, length_map.
      rewrite (Permutation_length Hperm), length_combine, length_seq, Nat.min_id.
      rewrite <- E, results_subset_length. reflexivity.
    + rewrite <- Hlen, map_snd_combine_seq.
      rewrite Hperm, map_snd_combine_seq. reflexivity.
    + rewrite <- Hlen, map_snd_combine_seq.
      apply StronglySorted_map.
      apply (stable_sort_StronglySorted le).
      * intros x y. apply lex_leb_total.
      * intros x y z. apply lex_leb_trans.
Qed.

End ExhaustiveTable.

Section ExhaustiveChoice.
Import Exhaustive.
Variable OLS_fit : list string -> fitted.

Lemma best_aic_vars_cons (F : list string) r0 rs :
  results_subset OLS_fit F = r0 :: rs ->
  exists s, best_aic_vars OLS_fit F = Return s.
Proof.
  intros E. unfold best_aic_vars. rewrite (res_df_cons OLS_fit F r0 rs E).
  cbn [mbind outcome_bind]. unfold loc_vars, reset_index. cbn [columns rows].
  change (bool_decide ("vars" ∈ ["vars"; "k"; "AIC"; "BIC"; "R2"])) with true.
  cbv iota.
  destruct (stable_sort (fun p q : nat * subset_row => lex_leb [AIC; BIC] p.2 q.2)
              (combine (seq 0 (length (r0 :: rs))) (r0 :: rs))) as [|h t] eqn:Es.
  - apply (f_equal (@length _)) in Es.
    rewrite (Permutation_length (stable_sort_perm _ _)) in Es. discriminate.
  - simpl. eauto.
Qed.

Lemma best_aic_vars_Raise (F : list string) e :
  best_aic_vars OLS_fit F = Raise e -> F = [] /\ e = KeyError.
Proof.
  destruct (results_subset OLS_fit F) as [|r0 rs] eqn:E.
  - rewrite (results_subset_nil OLS_fit F E). now intros [= <-].
  - destruct (best_aic_vars_cons F r0 rs E) as [s ->]. discriminate.
Qed.

Lemma enumerated_iff (F s : list string) :
  In s (map vars (results_subset OLS_fit F)) <-> s `sublist_of` F /\ s <> [].
Proof. rewrite results_subset_vars. apply nonempty_combinations_In. Qed.

(** X1: the subset reported as best by BIC is, for every fit table and
    every factor list, the subset reported as best by AIC (and the same
    exception when there is none): [.loc[0]] after [sort_values("BIC")]
    reads the row that carried label 0 before the sort. *)
Theorem best_bic_vars_always_best_aic_vars (F : list string) :
  best_bic_vars OLS_fit F = best_aic_vars OLS_fit F.
Proof. apply best_bic_vars_is_best_aic_vars. Qed.

(** X2: the subset read on line 169.  With no factor the read raises
    [KeyError]; otherwise it returns a non-empty subsequence of the factors,
    and no non-empty subsequence of the factors gives a model of lower
    AIC. *)
Theorem best_aic_vars_attains_minimum (F : list string) :
  match best_aic_vars OLS_fit F with
  | Return s =>
      s `sublist_of` F /\ s <> [] /\
      forall s', s' `sublist_of` F -> s' <> [] ->
                 (aic (OLS_fit s') <? aic (OLS_fit s))%float = false
  | Raise e => F = [] /\ e = KeyError
  end.
Proof.
  destruct (best_aic_vars OLS_fit F) as [s|e] eqn:E.
  - destruct (best_aic_vars_minimal OLS_fit F s E) as [Hin Hmin].
    apply enumerated_iff in Hin as [Hsub Hne].
    split; [assumption|]. split; [assumption|].
    intros s' Hs' Hne'. apply Hmin. apply enumerated_iff. auto.
  - now apply best_aic_vars_Raise.
Qed.

(** X3: the final variable set.  With no factor line 242 is not reached,
    the ranking has raised [KeyError]; with at least one factor the final set
    is the subset line 169 read, a non-empty subsequence of the factors: the
    fallback to the full factor list is never taken. *)
Theorem final_vars_never_falls_back (F : list string) :
  match final_vars OLS_fit F with
  | Return s =>
      best_aic_vars OLS_fit F = Return s /\ s `sublist_of` F /\ s <> []
  | Raise e => F = [] /\ e = KeyError
  end.
Proof.
  unfold final_vars. rewrite best_bic_vars_is_best_aic_vars.
  destruct (best_aic_vars OLS_fit F) as [s|e] eqn:E; cbn [mbind outcome_bind].
  - destruct (best_aic_vars_minimal OLS_fit F s E) as [Hin _].
    apply enumerated_iff in Hin as [Hsub Hne].
    destruct s as [|x s]; [congruence|]. simpl. auto.
  - now apply best_aic_vars_Raise.
Qed.

End ExhaustiveChoice.

(** ** The factor universe *)

Section FactorUniverse.

Lemma base_factors_NoDup : NoDup base_factors.
Proof. apply (bool_decide_unpack _). vm_compute. exact I. Qed.

Lemma factors_NoDup (fff_columns : list string) : NoDup (factors fff_columns).
Proof. apply NoDup_filter, base_factors_NoDup. Qed.

(** X11: the factors of a run are the base factors that are columns of the
    file, each once and in the order of [base_factors], whatever the order
    and the repetitions of the columns in the file; there are at most
    eight. *)
Theorem factors_from_columns (fff_columns : list string) :
  factors fff_columns `sublist_of` base_factors /\
  NoDup (factors fff_columns) /\
  (forall c, c ∈ factors fff_columns <-> c ∈ base_factors /\ c ∈ fff_columns) /\
  length (factors fff_columns) <= 8.
Proof.
  split; [apply sublist_filter|].
  split; [apply factors_NoDup|]. unfold factors.
  split.
  - intros c. rewrite list_elem_of_filter. tauto.
  - pose proof (sublist_length _ _ (sublist_filter
      (fun c => c ∈ fff_columns) base_factors)) as H.
    exact H.
Qed.

End FactorUniverse.

(** ** Each subset once *)

Section EnumerationOnce.

Lemma combinations_NoDup {A} (l : list A) (k : nat) :
  NoDup l -> NoDup (combinations l k).
Proof.
  revert k. induction l as [|x t IH]; intros [|k] Hnd; simpl.
  - apply NoDup_singleton.
  - apply NoDup_nil_2.
  - apply NoDup_singleton.
  - apply NoDup_cons in Hnd as [Hx Hnd].
    apply NoDup_app. split; [|split].
    + apply NoDup_fmap_2; [|now apply IH]. intros a b [=]. assumption.
    + intros s Hs Hs'.
      apply list_elem_of_In, in_map_iff in Hs as (s' & <- & _).
      apply list_elem_of_In, combinations_In in Hs' as [Hsub _].
      apply Hx. eapply elem_of_sublist; [|exact Hsub]. apply list_elem_of_here.
    + now apply IH.
Qed.

Lemma nonempty_combinations_NoDup {A} (l : list A) (a n : nat) :
  NoDup l -> NoDup (concat (map (combinations l) (seq a n))).
Proof.
  intros Hnd. revert a. induction n as [|n IH]; intros a; simpl.
  - apply NoDup_nil_2.
  - apply NoDup_app. split; [now apply combinations_NoDup|]. split; [|apply IH].
    intros s Hs Hs'.
    apply list_elem_of_In, combinations_In in Hs as [_ Hlen].
    apply list_elem_of_In, in_concat in Hs' as (c & Hc & Hs').
    apply in_map_iff in Hc as (i & <- & Hi). apply in_seq in Hi.
    apply combinations_In in Hs' as [_ Hlen']. lia.
Qed.

(** X4: the table of the exhaustive search, on the factors of any file and
    for any fit table, has every non-empty subset of the factors exactly
    once: no subset twice, a row for each, and in each row [k] is the size
    of the subset. *)
Theorem results_subset_each_subset_once
    (OLS_fit : list string -> fitted) (fff_columns : list string) :
  NoDup (map vars (Exhaustive.results_subset OLS_fit (factors fff_columns))) /\
  (forall s, In s (map vars (Exhaustive.results_subset OLS_fit (factors fff_columns)))
             <-> s `sublist_of` factors fff_columns /\ s <> []) /\
  Forall (fun r => k r = length (vars r))
         (Exhaustive.results_subset OLS_fit (factors fff_columns)).
Proof.
  split; [|split].
  - rewrite results_subset_vars. apply nonempty_combinations_NoDup.
    apply factors_NoDup.
  - intros s. apply enumerated_iff.
  - apply List.Forall_forall. intros r Hr. unfold Exhaustive.results_subset in Hr.
    apply in_concat in Hr as (c & Hc & Hr).
    apply in_map_iff in Hc as (i & <- & _).
    apply in_map_iff in Hr as (s & <- & Hs).
    apply combinations_In in Hs as [_ Hlen]. simpl. congruence.
Qed.

End EnumerationOnce.

(** ** Forward selection, NaN or not *)

Section ForwardPartition.
Import Forward.

Variable OLS_fit : list string -> fitted.
Variable set_iter : gset string -> list string.
Variable F : list string.
Hypothesis set_iter_perm : forall X, set_iter X ≡ₚ elements X.

Lemma set_iter_not_nil (X : gset string) : X <> ∅ -> set_iter X <> [].
Proof.
  intros HX Hnil. apply HX. apply set_eq. intros x.
  rewrite <- (set_iter_In set_iter set_iter_perm), Hnil. split; [intros []|].
  intros H. now apply not_elem_of_empty in H.
Qed.

Lemma forward_round_partition (st : state) :
  remaining st = list_to_set F ∖ list_to_set (selected_fwd st) ->
  NoDup (selected_fwd st) ->
  (forall v, v ∈ selected_fwd st -> v ∈ F) ->
  remaining st <> ∅ ->
  (exists st', round OLS_fit set_iter st = Return (Continue st') /\
               remaining st' = list_to_set F ∖ list_to_set (selected_fwd st') /\
               NoDup (selected_fwd st') /\
               (forall v, v ∈ selected_fwd st' -> v ∈ F) /\
               size (remaining st') < size (remaining st)) \/
  round OLS_fit set_iter st = Return (Break st).
Proof.
  intros Hrem Hnd Hsub Hne. unfold round.
  destruct (py_min_nonempty fst (aic_candidates OLS_fit set_iter st))
    as [[best_aic best_var] Hmin].
  { unfold aic_candidates. intros Hnil. apply map_eq_nil in Hnil.
    now apply set_iter_not_nil in Hnil. }
  rewrite Hmin. cbn [mbind outcome_bind].
  apply py_min_Return in Hmin as [Hin _].
  apply in_map_iff in Hin as (var & [= <- <-] & Hvar).
  apply (set_iter_In set_iter set_iter_perm) in Hvar.
  destruct (aic (OLS_fit (selected_fwd st ++ [var])) <? current_aic st - 1e-8)%float;
    [left | now right].
  rewrite (py_set_remove_In _ _ Hvar). cbn [mbind outcome_bind mret outcome_ret].
  eexists. split; [reflexivity|]. cbn [selected_fwd remaining current_aic].
  assert (Hv : var ∈ F /\ var ∉ selected_fwd st) by (rewrite Hrem in Hvar; set_solver).
  destruct Hv as [HvF Hv].
  split; [|split; [|split]].
  - rewrite Hrem, list_to_set_app_L. set_solver.
  - apply NoDup_app. split; [assumption|]. split; [|apply NoDup_singleton].
    intros x Hx Hx'. apply list_elem_of_singleton in Hx'. now subst.
  - intros v Hv'. apply elem_of_app in Hv' as [Hv'|Hv']; [auto|].
    apply list_elem_of_singleton in Hv'. now subst.
  - apply subset_size. set_solver.
Qed.

Lemma forward_loop_partition (fuel : nat) (st : state) :
  remaining st = list_to_set F ∖ list_to_set (selected_fwd st) ->
  NoDup (selected_fwd st) ->
  (forall v, v ∈ selected_fwd st -> v ∈ F) ->
  size (remaining st) < fuel ->
  exists st', loop OLS_fit set_iter fuel st = Some (Return st') /\
              remaining st' = list_to_set F ∖ list_to_set (selected_fwd st') /\
              NoDup (selected_fwd st') /\
              (forall v, v ∈ selected_fwd st' -> v ∈ F) /\
              (remaining st' = ∅ \/ round OLS_fit set_iter st' = Return (Break st')).
Proof.
  revert st. induction fuel as [|fuel IH]; intros st Hrem Hnd Hsub Hfuel; [lia|].
  simpl. destruct (decide (remaining st = ∅)) as [Hempty|Hne].
  - exists st. repeat (split; [first [reflexivity | assumption]|]). now left.
  - destruct (forward_round_partition st Hrem Hnd Hsub Hne)
      as [(st' & -> & Hrem' & Hnd' & Hsub' & Hsize)| Hbreak].
    + apply IH; auto. lia.
    + rewrite Hbreak. exists st.
      repeat (split; [first [reflexivity | assumption]|]). now right.
Qed.

(** X6: forward selection returns for every fit table, a NaN among the
    AICs or not: within one round per factor, without raising.  In the state
    it returns no variable is selected twice, every selected variable is a
    factor, the unused variables are exactly the factors not selected, and
    the loop ended because no factor was left or because the best candidate
    of the last round did not beat the AIC held by more than 1e-8. *)
Theorem forward_returns_partition :
  exists st, forward OLS_fit set_iter F = Some (Return st) /\
             NoDup (selected_fwd st) /\
             (forall v, v ∈ selected_fwd st -> v ∈ F) /\
             (forall v, v ∈ remaining st <-> v ∈ F /\ v ∉ selected_fwd st) /\
             (remaining st = ∅ \/ round OLS_fit set_iter st = Return (Break st)).
Proof.
  destruct (forward_loop_partition (S (length F)) (init F))
    as (st & Hloop & Hrem & Hnd & Hsub & Hend).
  - simpl. set_solver.
  - apply NoDup_nil_2.
  - intros v Hv. now apply elem_of_nil in Hv.
  - simpl. pose proof (size_list_to_set_le F). lia.
  - exists st. split; [exact Hloop|]. split; [exact Hnd|].
    split; [exact Hsub|]. split; [|exact Hend].
    intros v. rewrite Hrem. set_solver.
Qed.

End ForwardPartition.

(** The two-factor run, walked in the order of [elements]. *)
Lemma forward_returns_partition_two_factors :
  exists st,
    Forward.forward Runs.fit_two_factors elements Runs.two_factors
      = Some (Return st) /\
    NoDup (Forward.selected_fwd st) /\
    (forall v, v ∈ Forward.selected_fwd st -> v ∈ Runs.two_factors) /\
    (forall v, v ∈ Forward.remaining st
               <-> v ∈ Runs.two_factors /\ v ∉ Forward.selected_fwd st) /\
    (Forward.remaining st = ∅ \/
     Forward.round Runs.fit_two_factors elements st = Return (Break st)).
Proof.
  apply (forward_returns_partition Runs.fit_two_factors elements Runs.two_factors).
  intros X. reflexivity.
Defined.

(** ** Backward elimination returns a subsequence *)

Section BackwardSubsequence.
Import Backward.
Variable OLS_fit : list string -> fitted.

Lemma py_list_remove_sublist x (l l' : list string) :
  py_list_remove x l = Return l' -> l' `sublist_of` l /\ length l = S (length l').
Proof.
  revert l'. induction l as [|y l IH]; intros l'; simpl; [discriminate|].
  destruct (decide (y = x)) as [_|_].
  - intros [= <-]. split; [now apply sublist_cons | reflexivity].
  - destruct (py_list_remove x l) as [l''|e]; cbn [mbind outcome_bind]; [|discriminate].
    intros [= <-]. destruct (IH l'' eq_refl) as [Hsub Hlen].
    split; [now apply sublist_skip | simpl; congruence].
Qed.

Lemma backward_round_outcomes (selected_bwd : list string) :
  match round OLS_fit selected_bwd with
  | Return (Continue l') =>
      l' `sublist_of` selected_bwd /\ length selected_bwd = S (length l')
  | Return (Break l') => l' = selected_bwd /\ selected_bwd <> []
  | Raise e => e = ValueError
  end.
Proof.
  unfold round.
  destruct (py_min fst (aic_drop OLS_fit selected_bwd)) as [[best_aic drop_var]|e] eqn:Hmin;
    cbn [mbind outcome_bind].
  - destruct (best_aic <? aic (OLS_fit selected_bwd) - 1e-8)%float.
    + destruct (py_list_remove drop_var selected_bwd) as [l'|e] eqn:Hrm;
        cbn [mbind outcome_bind mret outcome_ret].
      * now apply py_list_remove_sublist in Hrm.
      * destruct selected_bwd; simpl in Hrm; [now injection Hrm|].
        apply py_min_Return in Hmin as [Hin _].
        apply in_map_iff in Hin as (var & [= _ <-] & Hvar).
        apply list_elem_of_In in Hvar.
        destruct (py_list_remove_In _ _ Hvar) as (l' & Hl' & _).
        simpl in Hl'. congruence.
    + cbn [mret outcome_ret]. split; [reflexivity|].
      intros ->. discriminate.
  - now apply py_min_Raise in Hmin.
Qed.

Lemma backward_loop_outcomes (fuel : nat) (l : list string) :
  length l < fuel ->
  match loop OLS_fit fuel l with
  | Some (Return sel) =>
      sel <> [] /\ sel `sublist_of` l /\
      round OLS_fit sel = Return (Break sel)
  | Some (Raise e) => e = ValueError
  | None => False
  end.
Proof.
  revert l. induction fuel as [|fuel IH]; intros l Hfuel; [lia|].
  simpl. pose proof (backward_round_outcomes l) as Hr.
  destruct (round OLS_fit l) as [[l'|l']|e] eqn:E.
  - destruct Hr as [Hsub Hlen]. specialize (IH l' ltac:(lia)).
    destruct (loop OLS_fit fuel l') as [[sel|e]|]; auto.
    destruct IH as (Hne & Hsub' & Hbreak).
    split; [assumption|]. split; [|assumption].
    now transitivity l'.
  - destruct Hr as [-> Hne]. auto.
  - assumption.
Qed.

(** X7: backward elimination ends, for every fit table, within one round
    per factor plus one.  When it returns, the selection is not empty, it is
    a subsequence of the factors (nothing is added, nothing reordered), the
    last round ended by [break], and running the loop again from that
    selection returns it unchanged.  When it does not return it has raised
    [ValueError]. *)
Theorem backward_returns_subsequence (F : list string) :
  match backward OLS_fit F with
  | Some (Return sel) =>
      sel <> [] /\ sel `sublist_of` F /\
      round OLS_fit sel = Return (Break sel) /\
      backward OLS_fit sel = Some (Return sel)
  | Some (Raise e) => e = ValueError
  | None => False
  end.
Proof.
  pose proof (backward_loop_outcomes (S (length F)) F ltac:(lia)) as H.
  unfold backward at 1.
  destruct (loop OLS_fit (S (length F)) F) as [[sel|e]|]; auto.
  destruct H as (Hne & Hsub & Hbreak).
  split; [assumption|]. split; [assumption|]. split; [assumption|].
  unfold backward. simpl. now rewrite Hbreak.
Qed.

(** X8: when backward elimination returns, on a fit table whose AICs are
    all numbers, removing any one selected variable gives a model whose AIC
    is not below the AIC of the selection minus 1e-8. *)
Theorem backward_break_is_local_optimum (F sel : list string) :
  (forall cols, is_nan (aic (OLS_fit cols)) = false) ->
  backward OLS_fit F = Some (Return sel) ->
  Forall (fun var =>
            (aic (OLS_fit (filter (fun v => v ≠ var) sel))
               <? aic (OLS_fit sel) - 1e-8)%float = false) sel.
Proof.
  intros Hnan Hret. apply List.Forall_forall. intros var Hvar.
  apply (backward_loop_stop OLS_fit _ _ _ Hnan Hret). now apply list_elem_of_In.
Qed.

End BackwardSubsequence.

(** On the two-factor run nothing is removed: dropping SMB or Rm-Rf does not
    lower the AIC 103 of the full model. *)
Lemma backward_break_two_factors :
  Forall (fun var =>
            (aic (Runs.fit_two_factors (filter (fun v => v ≠ var) Runs.two_factors))
               <? aic (Runs.fit_two_factors Runs.two_factors) - 1e-8)%float = false)
         Runs.two_factors.
Proof.
  apply (backward_break_is_local_optimum Runs.fit_two_factors
           Runs.two_factors Runs.two_factors).
  - intros cols. unfold Runs.fit_two_factors.
    destruct (Runs.has "Rm-Rf" cols), (Runs.has "SMB" cols); reflexivity.
  - vm_compute. reflexivity.
Defined.

(** ** Where the stepwise loop stops *)

Section StepwiseStop.
Import Stepwise.

Variable OLS_fit : list string -> fitted.
Variable set_iter : gset string -> list string.
Variable F : list string.
Hypothesis set_iter_perm : forall X, set_iter X ≡ₚ elements X.
Hypothesis aic_not_nan : forall cols, is_nan (aic (OLS_fit cols)) = false.

(** A state that a full round leaves unchanged has no addition and no
    removal that beats its AIC by more than 1e-8. *)
Lemma stepwise_unchanged_round (st : state) :
  (forall v, v ∈ remaining st <-> v ∈ F /\ v ∉ selected_sw st) ->
  round OLS_fit set_iter st = Return (st, false) ->
  (forall u, u ∈ F -> u ∉ selected_sw st ->
     (aic (OLS_fit (selected_sw st ++ [u])) <? current_aic st - 1e-8)%float = false) /\
  Forall (fun var =>
            (aic (OLS_fit (filter (fun v => v ≠ var) (selected_sw st)))
               <? aic (OLS_fit (selected_sw st)) - 1e-8)%float = false)
         (selected_sw st).
Proof.
  intros Hrem Hround. unfold round in Hround.
  (* the addition phase *)
  assert (Hadd : add_phase OLS_fit set_iter st = Return (st, false) /\
                 forall u, u ∈ F -> u ∉ selected_sw st ->
                   (aic (OLS_fit (selected_sw st ++ [u]))
                      <? current_aic st - 1e-8)%float = false).
  { unfold add_phase in *.
    destruct (add_aic OLS_fit set_iter st) as [|c0 cs] eqn:E.
    - split; [reflexivity|]. intros u HuF Hu. exfalso.
      unfold add_aic in E. apply map_eq_nil in E.
      assert (Hin : In u (set_iter (remaining st))).
      { apply (set_iter_In set_iter set_iter_perm). apply Hrem. auto. }
      rewrite E in Hin. destruct Hin.
    - destruct (py_min fst (c0 :: cs)) as [[best_aic best_var]|e] eqn:Hmin;
        [|discriminate].
      cbn [mbind outcome_bind] in Hround |- *.
      destruct (best_aic <? current_aic st - 1e-8)%float eqn:Himp.
      + exfalso.
        destruct (py_set_remove best_var (remaining st)) as [r'|e];
          cbn [mbind outcome_bind mret outcome_ret] in Hround; [|discriminate].
        destruct (remove_phase OLS_fit _) as [[st2 c2]|e];
          cbn [mbind outcome_bind mret outcome_ret] in Hround; discriminate.
      + split; [reflexivity|]. intros u HuF Hu.
        apply py_min_Return in Hmin as [Hin Hlow]. rewrite <- E in Hin, Hlow.
        apply in_map_iff in Hin as (var & [= <- <-] & _).
        assert (Hu' : (aic (OLS_fit (selected_sw st ++ [u]))
                         <? aic (OLS_fit (selected_sw st ++ [var])))%float = false).
        { apply (Hlow (aic (OLS_fit (selected_sw st ++ [u])), u)).
          apply in_map_iff. exists u. split; [reflexivity|].
          apply (set_iter_In set_iter set_iter_perm). apply Hrem. auto. }
        destruct (aic (OLS_fit (selected_sw st ++ [u])) <? current_aic st - 1e-8)%float
          eqn:Hlt; [|reflexivity].
        destruct (ltb_negtrans _ _ _ (aic_not_nan (selected_sw st ++ [var])) Hlt)
          as [H|H]; congruence. }
  destruct Hadd as [Hadd Hno_add]. split; [exact Hno_add|].
  rewrite Hadd in Hround. cbn [mbind outcome_bind] in Hround.
  (* the removal phase *)
  unfold remove_phase in Hround.
  destruct (rem_aic OLS_fit st) as [|c0 cs] eqn:E.
  { unfold rem_aic in E. apply map_eq_nil in E. rewrite E. constructor. }
  destruct (py_min (fun x => x.1.1) (c0 :: cs))
    as [[[best_aic_rem var_rem] cand]|e] eqn:Hmin; [|discriminate].
  cbn [mbind outcome_bind] in Hround.
  destruct (best_aic_rem <? aic (OLS_fit (selected_sw st)) - 1e-8)%float eqn:Himp.
  { exfalso.
    destruct (py_list_remove var_rem (selected_sw st)) as [l'|e];
      cbn [mbind outcome_bind mret outcome_ret] in Hround; discriminate. }
  apply py_min_Return in Hmin as [Hin Hlow]. rewrite <- E in Hin, Hlow.
  apply in_map_iff in Hin as (vr & [= <- <- <-] & _).
  apply List.Forall_forall. intros var Hvar.
  assert (Hv : (aic (OLS_fit (filter (fun v => v ≠ var) (selected_sw st)))
                  <? aic (OLS_fit (filter (fun v => v ≠ vr) (selected_sw st))))%float
               = false).
  { apply (Hlow (aic (OLS_fit (filter (fun v => v ≠ var) (selected_sw st))), var,
                 filter (fun v => v ≠ var) (selected_sw st))).
    apply in_map_iff. exists var. split; [reflexivity | assumption]. }
  destruct (aic (OLS_fit (filter (fun v => v ≠ var) (selected_sw st)))
              <? aic (OLS_fit (selected_sw st)) - 1e-8)%float eqn:Hlt; [|reflexivity].
  destruct (ltb_negtrans _ _ _
              (aic_not_nan (filter (fun v => v ≠ vr) (selected_sw st))) Hlt)
    as [H|H]; congruence.
Qed.

End StepwiseStop.

Section StepwiseResult.
Import Stepwise.

Variable OLS_fit : list string -> fitted.
Variable set_iter : gset string -> list string.
Variable F : list string.
Hypothesis set_iter_perm : forall X, set_iter X ≡ₚ elements X.
Hypothesis aic_sub_eps :
  forall cols, (aic (OLS_fit cols) <? aic (OLS_fit cols) - 1e-8)%float = false.

Lemma invariant_remaining (st : state) :
  invariant OLS_fit F st ->
  forall v, v ∈ remaining st <-> v ∈ F /\ v ∉ selected_sw st.
Proof.
  intros (Hrem & _). intros v.
  rewrite Hrem, elem_of_difference, !elem_of_list_to_set. reflexivity.
Qed.

(** X9: the stepwise loop returns, for every fit table on which subtracting
    1e-8 from an AIC gives no larger float, and for every iteration order of
    the set: it never raises and never runs beyond one round per possible
    selection.  In the state it returns no variable is selected twice, the
    unused variables are the factors not selected, the AIC held is [np.inf]
    with nothing selected or the AIC of the selected model, and a further
    round changes nothing. *)
Theorem stepwise_returns_fixed_point :
  exists st, stepwise OLS_fit set_iter F = Some (Return st) /\
             NoDup (selected_sw st) /\
             (forall v, v ∈ remaining st <-> v ∈ F /\ v ∉ selected_sw st) /\
             (selected_sw st = [] /\ current_aic st = infinity \/
              current_aic st = aic (OLS_fit (selected_sw st))) /\
             round OLS_fit set_iter st = Return (st, false).
Proof.
  destruct (stepwise_halts OLS_fit set_iter F set_iter_perm aic_sub_eps)
    as (st & Hret & Hinv & Hround).
  exists st. split; [exact Hret|].
  pose proof (invariant_remaining st Hinv) as Hrem.
  destruct Hinv as (_ & Hnd & _ & Hcur). auto.
Qed.

Hypothesis aic_not_nan : forall cols, is_nan (aic (OLS_fit cols)) = false.

(** X10: on a fit table whose AICs are all numbers, the selection the
    stepwise loop returns is a local optimum in both directions: adding any
    unused factor gives no AIC below the AIC held minus 1e-8, and removing
    any selected variable gives no AIC below the AIC of the selection minus
    1e-8. *)
Theorem stepwise_result_is_local_optimum :
  exists st, stepwise OLS_fit set_iter F = Some (Return st) /\
    (forall u, u ∈ F -> u ∉ selected_sw st ->
       (aic (OLS_fit (selected_sw st ++ [u])) <? current_aic st - 1e-8)%float
       = false) /\
    Forall (fun var =>
              (aic (OLS_fit (filter (fun v => v ≠ var) (selected_sw st)))
                 <? aic (OLS_fit (selected_sw st)) - 1e-8)%float = false)
           (selected_sw st).
Proof.
  destruct (stepwise_halts OLS_fit set_iter F set_iter_perm aic_sub_eps)
    as (st & Hret & Hinv & Hround).
  exists st. split; [exact Hret|].
  apply (stepwise_unchanged_round OLS_fit set_iter F set_iter_perm aic_not_nan);
    [|exact Hround].
  now apply invariant_remaining.
Qed.

End StepwiseResult.

(** On the two-factor run the stepwise loop returns a state that a further
    round leaves unchanged. *)
Lemma stepwise_fixed_point_two_factors :
  exists st,
    Stepwise.stepwise Runs.fit_two_factors elements Runs.two_factors
      = Some (Return st) /\
    NoDup (Stepwise.selected_sw st) /\
    (forall v, v ∈ Stepwise.remaining st
               <-> v ∈ Runs.two_factors /\ v ∉ Stepwise.selected_sw st) /\
    (Stepwise.selected_sw st = [] /\ Stepwise.current_aic st = infinity \/
     Stepwise.current_aic st
       = aic (Runs.fit_two_factors (Stepwise.selected_sw st))) /\
    Stepwise.round Runs.fit_two_factors elements st = Return (st, false).
Proof.
  apply (stepwise_returns_fixed_point Runs.fit_two_factors elements
           Runs.two_factors).
  - intros X. reflexivity.
  - intros cols. unfold Runs.fit_two_factors.
    destruct (Runs.has "Rm-Rf" cols), (Runs.has "SMB" cols); reflexivity.
Defined.

(** On the noise-factor run, where backward elimination raises, the stepwise
    loop returns a selection that no addition and no removal improves. *)
Lemma stepwise_local_optimum_noise_factor :
  exists st,
    Stepwise.stepwise Runs.fit_noise_factor elements Runs.noise_factor
      = Some (Return st) /\
    (forall u, u ∈ Runs.noise_factor -> u ∉ Stepwise.selected_sw st ->
       (aic (Runs.fit_noise_factor (Stepwise.selected_sw st ++ [u]))
          <? Stepwise.current_aic st - 1e-8)%float = false) /\
    Forall (fun var =>
              (aic (Runs.fit_noise_factor
                      (filter (fun v => v ≠ var) (Stepwise.selected_sw st)))
                 <? aic (Runs.fit_noise_factor (Stepwise.selected_sw st)) - 1e-8)%float
              = false)
           (Stepwise.selected_sw st).
Proof.
  apply (stepwise_result_is_local_optimum Runs.fit_noise_factor elements
           Runs.noise_factor).
  - intros X. reflexivity.
  - intros cols. unfold Runs.fit_noise_factor.
    destruct (Runs.has "SMB" cols); reflexivity.
  - intros cols. unfold Runs.fit_noise_factor.
    destruct (Runs.has "SMB" cols); reflexivity.
Defined.

(** ** The non-crisis sample (lines 81-89) *)

Section CrisisMask.
Import Data.

Lemma date_leb_refl (d : date) : date_leb d d = true.
Proof.
  unfold date_leb.
  rewrite !Nat.ltb_irrefl, !Nat.eqb_refl, Nat.leb_refl. reflexivity.
Qed.

Lemma mask_fold_forallb (ranges : list (date * date)) (d : option date) (mask : bool) :
  fold_left (fun mask '(start, end_) => mask && negb (between d start end_))
            ranges mask
  = mask && forallb (fun '(start, end_) => negb (between d start end_)) ranges.
Proof.
  revert mask. induction ranges as [|[start end_] ranges IH]; intros mask; simpl.
  - now rewrite andb_true_r.
  - rewrite IH. now rewrite andb_assoc.
Qed.

Lemma mask_non_crisis_false (ranges : list (date * date)) (d : option date) :
  mask_non_crisis ranges d = false <->
  exists start end_, In (start, end_) ranges /\ between d start end_ = true.
Proof.
  unfold mask_non_crisis. rewrite mask_fold_forallb. simpl.
  induction ranges as [|[s e] ranges IH]; simpl.
  - split; [discriminate | intros (? & ? & [] & _)].
  - rewrite andb_false_iff, negb_false_iff, IH. split.
    + intros [Hb|(start & end_ & Hin & Hb)]; eauto 6.
    + intros (start & end_ & [[= <- <-]|Hin] & Hb); eauto 6.
Qed.

(** X12: the mask of lines 81-83 drops a row exactly when its date lies in
    one of the ranges, the first and the last day of the range included; a
    row whose date did not parse is never dropped by the mask. *)
Theorem mask_non_crisis_drops_the_ranges (ranges : list (date * date)) :
  mask_non_crisis ranges None = true /\
  forall d, mask_non_crisis ranges (Some d) = false <->
            exists start end_, In (start, end_) ranges /\
                               date_leb start d = true /\ date_leb d end_ = true.
Proof.
  split.
  - destruct (mask_non_crisis ranges None) eqn:E; [reflexivity|].
    apply mask_non_crisis_false in E as (start & end_ & _ & Hb). discriminate.
  - intros d. rewrite mask_non_crisis_false. unfold between.
    split; intros (start & end_ & Hin & H); exists start, end_;
      (split; [assumption|]).
    + now apply andb_true_iff.
    + now apply andb_true_iff.
Qed.

(** X13: when every range starts no later than it ends, the first and the
    last day of every range are themselves dropped. *)
Theorem range_ends_are_dropped (ranges : list (date * date)) :
  Forall (fun '(start, end_) => date_leb start end_ = true) ranges ->
  Forall (fun '(start, end_) =>
            mask_non_crisis ranges (Some start) = false /\
            mask_non_crisis ranges (Some end_) = false) ranges.
Proof.
  rewrite !List.Forall_forall. intros Hwf [start end_] Hin.
  specialize (Hwf _ Hin). simpl in Hwf.
  split; apply mask_non_crisis_false; exists start, end_;
    (split; [assumption|]); unfold between;
    rewrite ?date_leb_refl, Hwf; reflexivity.
Qed.

End CrisisMask.

(** The thirteen ranges of the script start no later than they end. *)
Lemma crisis_range_ends_are_dropped :
  Forall (fun '(start, end_) =>
            Data.mask_non_crisis Data.crisis_ranges (Some start) = false /\
            Data.mask_non_crisis Data.crisis_ranges (Some end_) = false)
         Data.crisis_ranges.
Proof.
  apply (range_ends_are_dropped Data.crisis_ranges).
  repeat constructor.
Defined.

Section NonCrisisSample.
Import Data.

Lemma List_filter_sublist {A} (f : A -> bool) (l : list A) :
  List.filter f l `sublist_of` l.
Proof.
  induction l as [|x l IH]; simpl; [constructor|].
  destruct (f x); [now apply sublist_skip | now apply sublist_cons].
Qed.

Lemma factors_not_Y (fff_columns : list string) : "Y" ∉ factors fff_columns.
Proof.
  unfold factors. intros H. apply list_elem_of_filter in H as [_ H].
  revert H. apply (bool_decide_unpack _). vm_compute. exact I.
Qed.

Lemma notna_cols_needed (fs : list string) (r : row) :
  notna (cols_needed fs) r = true <->
  is_nan (Y r) = false /\ Forall (fun c => is_nan (value r c) = false) fs.
Proof.
  unfold notna, cols_needed. cbn [forallb].
  rewrite andb_true_iff, negb_true_iff, forallb_forall, List.Forall_forall.
  unfold value at 1. destruct (decide ("Y" = "Y")) as [_|[]]; [|reflexivity].
  split; intros [HY Hfs]; (split; [assumption|]);
    intros c Hc; specialize (Hfs c Hc); now apply negb_true_iff.
Qed.

Lemma data_nc_sublist (fff : list row) (fs : list string) :
  data_nc fff fs `sublist_of` fff.
Proof. unfold data_nc. etransitivity; apply List_filter_sublist. Qed.

(** What the mask and [dropna] keep of a frame, on the factors of a run. *)
Lemma data_nc_In (fff : list row) (fff_columns : list string) (r : row) :
  In r (data_nc fff (factors fff_columns)) <->
  In r fff /\ mask_non_crisis crisis_ranges (Date r) = true /\
  is_nan (Y r) = false /\
  Forall (fun c => is_nan (cell r c) = false) (factors fff_columns).
Proof.
  unfold data_nc. rewrite !filter_In, notna_cols_needed.
  assert (Hcells : Forall (fun c => is_nan (value r c) = false) (factors fff_columns)
                   <-> Forall (fun c => is_nan (cell r c) = false)
                              (factors fff_columns)).
  { rewrite !List.Forall_forall.
    split; intros H c Hc; specialize (H c Hc); unfold value in *;
      destruct (decide (c = "Y")) as [->|_]; try assumption;
      exfalso; apply (factors_not_Y fff_columns); now apply list_elem_of_In. }
  rewrite Hcells. tauto.
Qed.

Lemma SFltb_false_leb a b :
  SFeqb a a = true -> SFeqb b b = true -> SFltb a b = false -> SFleb b a = true.
Proof.
  unfold SFleb, SFltb, SFeqb.
  destruct a as [sa|sa| |sa ma ea], b as [sb|sb| |sb mb eb]; simpl;
  repeat match goal with s : bool |- _ => destruct s end;
  simpl; try congruence; intros _ _;
  rewrite (Z.compare_antisym ea eb);
  destruct (Z.compare ea eb); simpl; try congruence;
  fold (Pos.compare ma mb); fold (Pos.compare mb ma);
  rewrite (Pos.compare_antisym ma mb);
  destruct (Pos.compare ma mb); simpl; congruence.
Qed.

Lemma ltb_false_leb (a b : float) :
  is_nan a = false -> is_nan b = false ->
  (a <? b)%float = false -> (b <=? a)%float = true.
Proof.
  intros Ha Hb. rewrite ltb_spec, leb_spec.
  apply SFltb_false_leb; now apply is_nan_false_SFeqb.
Qed.

Lemma y0_no_nan (fff : list row) (fs : list string) :
  Forall (fun y => is_nan y = false) (y0 fff fs).
Proof.
  unfold y0. apply List.Forall_forall. intros y Hy.
  apply in_map_iff in Hy as (r & <- & Hr).
  unfold data_nc in Hr. apply filter_In in Hr as [_ Hr].
  now apply notna_cols_needed in Hr as [Hr _].
Qed.

(** X15: the response of the sample holds no missing value, whatever the
    factors; so when the sample is not empty, [y0.min()] on line 128 is one
    of the observations, is a number, and is at or below every
    observation. *)
Theorem y0_min_is_attained (fff : list row) (fs : list string) :
  y0 fff fs <> [] ->
  Forall (fun y => is_nan y = false) (y0 fff fs) /\
  In (BoxCox.series_min (y0 fff fs)) (y0 fff fs) /\
  is_nan (BoxCox.series_min (y0 fff fs)) = false /\
  Forall (fun y => (BoxCox.series_min (y0 fff fs) <=? y)%float = true) (y0 fff fs).
Proof.
  intros Hne. pose proof (y0_no_nan fff fs) as Hnan.
  destruct (y0 fff fs) as [|y1 ys] eqn:E; [congruence|].
  assert (Hin : In (BoxCox.series_min (y1 :: ys)) (y1 :: ys)).
  { rewrite series_min_min_from. apply (min_from_In (fun x => x)). }
  rewrite List.Forall_forall in Hnan.
  split; [now apply List.Forall_forall|].
  split; [exact Hin|]. split; [now apply Hnan|].
  apply List.Forall_forall. intros y Hy.
  apply ltb_false_leb; [now apply Hnan | now apply Hnan |].
  now apply series_min_lower.
Qed.

End NonCrisisSample.

(** Of the three rows of the small file the calm row alone enters the
    sample on SMB: the crisis row is masked and the undated row has no
    SMB. *)
Lemma y0_min_small_file :
  Forall (fun y => is_nan y = false) (Data.y0 Runs.small_file ["SMB"]) /\
  In (BoxCox.series_min (Data.y0 Runs.small_file ["SMB"]))
     (Data.y0 Runs.small_file ["SMB"]) /\
  is_nan (BoxCox.series_min (Data.y0 Runs.small_file ["SMB"])) = false /\
  Forall (fun y => (BoxCox.series_min (Data.y0 Runs.small_file ["SMB"]) <=? y)%float
                   = true)
         (Data.y0 Runs.small_file ["SMB"]).
Proof.
  apply (y0_min_is_attained Runs.small_file ["SMB"]).
  vm_compute. discriminate.
Defined.

(** ** The sample of the date-sorted frame (lines 54, 81-89) *)

Section DateOrder.
Import Data.

Lemma date_leb_total (a b : date) : date_leb a b = false -> date_leb b a = true.
Proof.
  unfold date_leb. intros H.
  apply orb_false_iff in H as [Hy H]. apply Nat.ltb_ge in Hy.
  destruct (Nat.eqb_spec (year a) (year b)) as [Ey|Ny].
  - simpl in H. apply orb_false_iff in H as [Hm H]. apply Nat.ltb_ge in Hm.
    rewrite Ey, Nat.ltb_irrefl, Nat.eqb_refl. simpl.
    destruct (Nat.eqb_spec (month a) (month b)) as [Em|Nm].
    + simpl in H. apply Nat.leb_gt in H.
      rewrite Em, Nat.ltb_irrefl, Nat.eqb_refl. simpl.
      apply Nat.leb_le. lia.
    + replace (month b <? month a)%nat with true; [reflexivity|].
      symmetry. apply Nat.ltb_lt. lia.
  - replace (year b <? year a)%nat with true; [reflexivity|].
    symmetry. apply Nat.ltb_lt. lia.
Qed.

Lemma date_leb_trans (a b c : date) :
  date_leb a b = true -> date_leb b c = true -> date_leb a c = true.
Proof.
  unfold date_leb. intros H1 H2.
  repeat match goal with
         | H : (_ || _) = true |- _ => apply orb_true_iff in H as [H|H]
         | H : (_ && _) = true |- _ =>
             let H' := fresh H in apply andb_true_iff in H as [H H']
         | H : (_ <? _)%nat = true |- _ => apply Nat.ltb_lt in H
         | H : (_ =? _)%nat = true |- _ => apply Nat.eqb_eq in H
         | H : (_ <=? _)%nat = true |- _ => apply Nat.leb_le in H
         end;
  try (replace (year a <? year c)%nat with true
         by (symmetry; apply Nat.ltb_lt; lia); reflexivity);
  replace (year a =? year c)%nat with true by (symmetry; apply Nat.eqb_eq; lia);
  rewrite orb_true_iff; right; simpl;
  try (replace (month a <? month c)%nat with true
         by (symmetry; apply Nat.ltb_lt; lia); reflexivity);
  replace (month a =? month c)%nat with true by (symmetry; apply Nat.eqb_eq; lia);
  rewrite orb_true_iff; right; simpl;
  apply Nat.leb_le; lia.
Qed.

Lemma NaT_last_leb_total (a b : option date) :
  NaT_last_leb a b = false -> NaT_last_leb b a = true.
Proof.
  destruct a as [da|], b as [db|]; simpl; try congruence.
  apply date_leb_total.
Qed.

Lemma NaT_last_leb_trans (a b c : option date) :
  NaT_last_leb a b = true -> NaT_last_leb b c = true -> NaT_last_leb a c = true.
Proof.
  destruct a as [da|], b as [db|], c as [dc|]; simpl; try congruence.
  apply date_leb_trans.
Qed.

Lemma sort_values_Date_perm (file : list row) : sort_values_Date file ≡ₚ file.
Proof. apply stable_sort_perm. Qed.

Lemma sort_values_Date_sorted (file : list row) :
  StronglySorted (fun a b => NaT_last_leb (Date a) (Date b) = true)
                 (sort_values_Date file).
Proof.
  apply (stable_sort_StronglySorted
           (fun a b => NaT_last_leb (Date a) (Date b))).
  - intros x y. apply NaT_last_leb_total.
  - intros x y z. apply NaT_last_leb_trans.
Qed.

Lemma StronglySorted_filter {A} (R : A -> A -> Prop) (f : A -> bool) (l : list A) :
  StronglySorted R l -> StronglySorted R (List.filter f l).
Proof.
  induction 1 as [|a l Hs IH Hall]; simpl; [constructor|].
  destruct (f a); [|assumption]. constructor; [assumption|].
  rewrite List.Forall_forall in Hall |- *. intros b Hb.
  apply filter_In in Hb as [Hb _]. auto.
Qed.

End DateOrder.

Section SortedSample.
Import Data.

(** The sort of line 54, whatever kernel pandas runs it with: it returns the
    rows of the file, in date order with the undated rows last. *)
Variable sort_by_Date : list row -> list row.
Hypothesis sort_by_Date_perm : forall file, sort_by_Date file ≡ₚ file.
Hypothesis sort_by_Date_sorted :
  forall file,
    StronglySorted (fun a b => NaT_last_leb (Date a) (Date b) = true)
                   (sort_by_Date file).

(** X14: the frame is sorted by date before the mask.  For every sort that
    returns the rows of the file in date order, undated rows last, the
    non-crisis sample is a subsequence of the sorted frame, so it is itself
    in date order with the undated rows last, whatever the order of the
    file; and it holds exactly the rows of the file that the mask keeps and
    that have a number in [Y] and in every factor of the run: no other
    column decides. *)
Theorem data_nc_rows (file : list row) (fff_columns : list string) :
  data_nc (sort_by_Date file) (factors fff_columns) `sublist_of` sort_by_Date file /\
  StronglySorted (fun a b => NaT_last_leb (Date a) (Date b) = true)
                 (data_nc (sort_by_Date file) (factors fff_columns)) /\
  forall r, In r (data_nc (sort_by_Date file) (factors fff_columns)) <->
            In r file /\ mask_non_crisis crisis_ranges (Date r) = true /\
            is_nan (Y r) = false /\
            Forall (fun c => is_nan (cell r c) = false) (factors fff_columns).
Proof.
  split; [apply data_nc_sublist|].
  split.
  - unfold data_nc. do 2 apply StronglySorted_filter. apply sort_by_Date_sorted.
  - intros r. rewrite data_nc_In.
    assert (Hin : In r (sort_by_Date file) <-> In r file).
    { split; apply Permutation_in;
        [apply sort_by_Date_perm | symmetry; apply sort_by_Date_perm]. }
    rewrite Hin. reflexivity.
Qed.

End SortedSample.

(** A file that lists the undated row first and the crisis row last, sorted
    as the model of line 54 sorts it. *)
Lemma data_nc_rows_unsorted_file :
  Data.data_nc (Data.sort_values_Date Runs.unsorted_file) (factors ["SMB"])
    `sublist_of` Data.sort_values_Date Runs.unsorted_file /\
  StronglySorted (fun a b => Data.NaT_last_leb (Data.Date a) (Data.Date b) = true)
                 (Data.data_nc (Data.sort_values_Date Runs.unsorted_file)
                               (factors ["SMB"])) /\
  forall r, In r (Data.data_nc (Data.sort_values_Date Runs.unsorted_file)
                               (factors ["SMB"])) <->
            In r Runs.unsorted_file /\
            Data.mask_non_crisis Data.crisis_ranges (Data.Date r) = true /\
            is_nan (Data.Y r) = false /\
            Forall (fun c => is_nan (Data.cell r c) = false) (factors ["SMB"]).
Proof.
  apply (data_nc_rows Data.sort_values_Date).
  - intros file. apply sort_values_Date_perm.
  - intros file. apply sort_values_Date_sorted.
Defined.

(** ** The VIF table (lines 254-258) *)

Section VifTable.
Import Vif.

Variable variance_inflation_factor : nat -> float.

Lemma vifs_from_no_const (i : nat) (cols : list string) :
  "const" ∉ cols ->
  vifs_from variance_inflation_factor i cols
  = map (fun p => {| variavel := p.2; VIF := variance_inflation_factor p.1 |})
        (combine (seq i (length cols)) cols).
Proof.
  revert i. induction cols as [|col cols IH]; intros i Hc; simpl; [reflexivity|].
  apply not_elem_of_cons in Hc as [Hne Hc].
  destruct (decide (col = "const")) as [->|_]; [congruence|].
  now rewrite IH.
Qed.

Lemma combine_seq_S (l : list string) (a : nat) :
  map (fun p : nat * string =>
         {| variavel := p.2; VIF := variance_inflation_factor p.1 |})
      (combine (seq (S a) (length l)) l)
  = map (fun p : nat * string =>
           {| variavel := p.2; VIF := variance_inflation_factor (S p.1) |})
        (combine (seq a (length l)) l).
Proof.
  revert a. induction l as [|x l IH]; intros a; simpl; [reflexivity|].
  now rewrite IH.
Qed.

Lemma vifs_const_cons (final_vars : list string) :
  "const" ∉ final_vars ->
  vifs variance_inflation_factor ("const" :: final_vars)
  = map (fun p => {| variavel := p.2; VIF := variance_inflation_factor (S p.1) |})
        (combine (seq 0 (length final_vars)) final_vars).
Proof.
  intros Hc. unfold vifs. cbn [vifs_from].
  destruct (decide ("const" = "const")) as [_|[]]; [|reflexivity].
  rewrite (vifs_from_no_const 1 final_vars Hc). apply combine_seq_S.
Qed.

Lemma vifs_const_cons_variavel (final_vars : list string) :
  "const" ∉ final_vars ->
  map variavel (vifs variance_inflation_factor ("const" :: final_vars)) = final_vars.
Proof.
  intros Hc. rewrite (vifs_const_cons final_vars Hc).
  rewrite map_map. cbn [variavel].
  change (fun x : nat * string => x.2) with (@snd nat string).
  apply map_snd_combine_seq.
Qed.

(** X16: with the constant in front of final variables none of which is
    named "const", the VIF table has one row per final variable, in their
    order, and the variable at position [i] gets the VIF of column [i + 1] of
    the design: the constant's own VIF is never computed. *)
Theorem vifs_of_final_vars (final_vars : list string) :
  "const" ∉ final_vars ->
  vifs variance_inflation_factor ("const" :: final_vars)
  = map (fun p => {| variavel := p.2; VIF := variance_inflation_factor (S p.1) |})
        (combine (seq 0 (length final_vars)) final_vars) /\
  map variavel (vifs variance_inflation_factor ("const" :: final_vars)) = final_vars.
Proof.
  intros Hc. split; [now apply vifs_const_cons | now apply vifs_const_cons_variavel].
Qed.

End VifTable.

(** The factors of the two-factor run: Rm-Rf gets the VIF of column 1, SMB
    of column 2. *)
Lemma vifs_two_factors :
  Vif.vifs Runs.vif_two_factors ("const" :: Runs.two_factors)
  = map (fun p => {| Vif.variavel := p.2;
                     Vif.VIF := Runs.vif_two_factors (S p.1) |})
        (combine (seq 0 (length Runs.two_factors)) Runs.two_factors) /\
  map Vif.variavel (Vif.vifs Runs.vif_two_factors ("const" :: Runs.two_factors))
  = Runs.two_factors.
Proof.
  apply (vifs_of_final_vars Runs.vif_two_factors Runs.two_factors).
  apply (bool_decide_unpack _). vm_compute. exact I.
Defined.

(** ** Relative importance (lines 300-310) *)

Section ImportanceTable.
Import Importance.

Variable OLS_fit : list string -> fitted.

Lemma nan_last_geb_total (x y : float) :
  nan_last_geb x y = false -> nan_last_geb y x = true.
Proof.
  unfold nan_last_geb. destruct (is_nan y) eqn:Hy; [discriminate|].
  destruct (is_nan x) eqn:Hx; [reflexivity|].
  rewrite !leb_spec.
  apply SFleb_total; now apply is_nan_false_SFeqb.
Qed.

Lemma nan_last_geb_trans (x y z : float) :
  nan_last_geb x y = true -> nan_last_geb y z = true -> nan_last_geb x z = true.
Proof.
  unfold nan_last_geb. destruct (is_nan z) eqn:Hz; [reflexivity|].
  destruct (is_nan y) eqn:Hy; [discriminate|].
  destruct (is_nan x) eqn:Hx; [discriminate|].
  rewrite !leb_spec. intros H1 H2. exact (SFleb_trans _ _ _ H2 H1).
Qed.

(** A row ranked at or before another has no smaller drop of R2, in
    Python's comparison. *)
Lemma nan_last_geb_not_ltb (x y : float) :
  nan_last_geb x y = true -> (x <? y)%float = false.
Proof.
  unfold nan_last_geb. destruct (is_nan y) eqn:Hy.
  - intros _. destruct (x <? y)%float eqn:E; [|reflexivity].
    apply ltb_not_nan_r in E. congruence.
  - destruct (is_nan x); [discriminate|].
    rewrite leb_spec, ltb_spec. apply SFleb_not_ltb.
Qed.

Lemma imp_rows_variavel (final_vars : list string) :
  map variavel (imp_rows OLS_fit final_vars) = final_vars.
Proof. unfold imp_rows. rewrite map_map. cbn [variavel]. apply map_id. Qed.

Lemma imp_df_cons (var : string) (final_vars : list string) :
  imp_df OLS_fit (var :: final_vars)
  = Return (stable_sort (fun a b => nan_last_geb (delta_R2 a) (delta_R2 b))
                        (imp_rows OLS_fit (var :: final_vars))).
Proof. reflexivity. Qed.

(** X17: the importance table.  With no final variable the sort raises
    [KeyError]; otherwise the table has one row per final variable, holding
    the R2 of the full model minus the R2 of the model without that variable,
    ranked by that drop in descending order with missing values last: no row
    has a drop strictly below the drop of a row after it. *)
Theorem imp_df_is_ranked (final_vars : list string) :
  match imp_df OLS_fit final_vars with
  | Return df =>
      final_vars <> [] /\
      map variavel df ≡ₚ final_vars /\
      Forall (fun row =>
                delta_R2 row
                = (rsquared (OLS_fit final_vars)
                   - rsquared (OLS_fit (filter (fun v => v ≠ variavel row)
                                               final_vars)))%float)
             df /\
      StronglySorted (fun a b => nan_last_geb (delta_R2 a) (delta_R2 b) = true /\
                                 (delta_R2 a <? delta_R2 b)%float = false)
                     df
  | Raise e => final_vars = [] /\ e = KeyError
  end.
Proof.
  destruct final_vars as [|var vars']; [simpl; auto|].
  rewrite imp_df_cons.
  set (fv := var :: vars').
  set (df := stable_sort _ _).
  assert (Hperm : df ≡ₚ imp_rows OLS_fit fv) by apply stable_sort_perm.
  split; [discriminate|].
  split; [rewrite Hperm; now rewrite imp_rows_variavel|].
  split.
  { apply List.Forall_forall. intros row Hrow.
    apply (Permutation_in _ Hperm) in Hrow.
    unfold imp_rows in Hrow. apply in_map_iff in Hrow as (v & <- & _).
    reflexivity. }
  assert (Hs : StronglySorted
                 (fun a b => nan_last_geb (delta_R2 a) (delta_R2 b) = true) df).
  { apply (stable_sort_StronglySorted
             (fun a b => nan_last_geb (delta_R2 a) (delta_R2 b))).
    - intros x y. apply nan_last_geb_total.
    - intros x y z. apply nan_last_geb_trans. }
  clearbody df. clear Hperm.
  induction Hs as [|a l Hs IH Hall]; constructor; [assumption|].
  rewrite List.Forall_forall in Hall |- *. intros b Hb.
  split; [now apply Hall | apply nan_last_geb_not_ltb; now apply Hall].
Qed.

End ImportanceTable.

(** ** From the final variables to the tables *)

Section FinalVarsDownstream.

Variable OLS_fit : list string -> fitted.
Variable variance_inflation_factor : nat -> float.

Lemma const_not_base_factor : "const" ∉ base_factors.
Proof. apply (bool_decide_unpack _). vm_compute. exact I. Qed.

(** X18: on the factors of any file and for every fit table, the final
    variables that reach lines 250-310 are a non-empty selection of base
    factors, each once and none named "const": the VIF table then has
    exactly their rows, in their order, and the sort of the importance table
    does not raise.  With no factor in the file the script has already
    stopped on the [KeyError] of line 167. *)
Theorem final_vars_feed_the_tables (fff_columns : list string) :
  match Exhaustive.final_vars OLS_fit (factors fff_columns) with
  | Return final_vars =>
      final_vars <> [] /\ NoDup final_vars /\
      (final_vars `sublist_of` base_factors) /\ ("const" ∉ final_vars) /\
      map Vif.variavel (Vif.vifs variance_inflation_factor ("const" :: final_vars))
      = final_vars /\
      exists imp, Importance.imp_df OLS_fit final_vars = Return imp /\
                  length imp = length final_vars
  | Raise e => factors fff_columns = [] /\ e = KeyError
  end.
Proof.
  unfold Exhaustive.final_vars. rewrite best_bic_vars_is_best_aic_vars.
  destruct (Exhaustive.best_aic_vars OLS_fit (factors fff_columns)) as [s|e] eqn:E;
    cbn [mbind outcome_bind].
  - destruct (best_aic_vars_minimal OLS_fit _ s E) as [Hin _].
    apply enumerated_iff in Hin as [Hsub Hne].
    destruct s as [|x s]; [congruence|]. cbn [length Nat.ltb Nat.leb].
    set (fv := x :: s) in *.
    assert (Hbase : fv `sublist_of` base_factors).
    { etransitivity; [exact Hsub | apply sublist_filter]. }
    assert (Hconst : "const" ∉ fv).
    { intros Hc. apply const_not_base_factor.
      eapply elem_of_sublist; eassumption. }
    split; [assumption|].
    split; [eapply sublist_NoDup; [exact base_factors_NoDup | exact Hbase]|].
    split; [assumption|]. split; [assumption|].
    split; [now apply vifs_const_cons_variavel|].
    subst fv. eexists. split; [apply imp_df_cons|].
    rewrite (Permutation_length (stable_sort_perm _ _)).
    unfold Importance.imp_rows. now rewrite length_map.
  - exact (best_aic_vars_Raise OLS_fit _ _ E).
Qed.

End FinalVarsDownstream.
